(** * The Royal Game of Ur: [ur.cpp]

    A shallow embedding of the board representation, the move generator
    [getOptions], the move applier [apply], the validity checker
    [_verifySides], the board printer [display], the agents
    [FarthestAgent] and [ClosestAgent] and the drivers [playOneRoll] and
    [playOneGame], followed by their properties.

    Conventions.  A [uint8_t] / [uint16_t] value is a [Z] together with its
    wrap-around ([u8], [u16]); a [std::bitset<16>] is a [Z] whose bit [i] is
    [Z.testbit _ i].  The bitset members [set], [reset] and [test] throw
    [std::out_of_range] for a position outside the bitset; the two sides are
    passed to [apply] by reference, so [apply] lives in a small monad that
    threads both sides and may stop with that exception.  The rolls of
    [getRandomRoll] are an input of the drivers, and what [display] sends to
    [std::cout] is its result; the log lines are left out. *)

From Stdlib Require Import Ascii ZArith Bool List Lia FinFun.
Import ListNotations.
Local Open Scope Z_scope.

(** ** Fixed-width unsigned integers *)

Definition u8 (z : Z) : Z := z mod 2 ^ 8.
Definition u16 (z : Z) : Z := z mod 2 ^ 16.

(** ** [std::bitset<16>] *)

Module Bitset.

Definition size : Z := 16.

(** [bitset(unsigned long long)]: keeps the low 16 bits. *)
Definition of_ull (v : Z) : Z := Z.land v (Z.ones size).

(** [operator~]: flips the 16 bits. *)
Definition bnot (b : Z) : Z := Z.lxor b (Z.ones size).

(** [operator&] and [operator>>]. *)
Definition band (a b : Z) : Z := Z.land a b.
Definition shr (b n : Z) : Z := Z.shiftr b n.

(** The number of set bits among the positions [ps]. *)
Fixpoint count_at (ps : list Z) (b : Z) : Z :=
  match ps with
  | [] => 0
  | p :: ps' => Z.b2z (Z.testbit b p) + count_at ps' b
  end.

(** [count()]: the number of set bits. *)
Definition count (b : Z) : Z := count_at (map Z.of_nat (seq 0 16)) b.

End Bitset.

(** ** Sides *)

(** [using Steps = uint8_t;  // [0..4]] and
    [using Position = uint8_t;  // [0..15]] are [Z] here. *)

Record Side : Type := mkSide {
  remaining : Z;   (* uint16_t: tiles in the starting pile *)
  occupied : Z     (* std::bitset<16>: bit 15 unused, bit 0 redundant *)
}.

Definition TILES : Z := 7.
Definition START : Side := mkSide TILES 1.
Definition COMPLETE : Side := mkSide 0 0.

(** The ranges of the two fields' C++ types. *)
Definition Side_repr (s : Side) : Prop :=
  0 <= remaining s < 2 ^ 16 /\ 0 <= occupied s < 2 ^ 16.

(** "Bit 0 is redundant with [remaining]": it is set exactly when the
    starting pile is not empty. *)
Definition pile_flag (s : Side) : Prop :=
  Z.testbit (occupied s) 0 = (0 <? remaining s).

(** The positions of the tile path proper, 1 to 14, and the number of tiles
    a side has there ([(occupied >> 1).count()] in [display], bit 15 being
    unused). *)
Definition path : list Z := map Z.of_nat (seq 1 14).
Definition on_path (s : Side) : Z := Bitset.count_at path (occupied s).

(** ** [getOptions] *)

(** The four masks, one per numbered rule of the source.  The mask of rule 4
    shifts the [int] constant [0xFFFF], which C++ defines for a shift below
    32; a roll is 0 to 4. *)
Definition rule1 (self : Side) : Z := occupied self.
Definition rule2 (self : Side) (steps : Z) : Z :=
  Bitset.bnot (Bitset.band (occupied self) (Bitset.shr (occupied self) steps)).
Definition rule3 (other : Side) : Z :=
  Bitset.bnot (Bitset.band (Bitset.of_ull 0x0100) (occupied other)).
Definition rule4 (steps : Z) : Z :=
  Bitset.of_ull (Z.shiftr 0xFFFF steps).

Definition getOptions (self other : Side) (steps : Z) : Z :=
  let options := Bitset.of_ull 0x7FFF in
  let options := Bitset.band options (rule1 self) in
  let options := Bitset.band options (rule2 self steps) in
  let options := Bitset.band options (rule3 other) in
  let options := Bitset.band options (rule4 steps) in
  options.

(** [options[start]] as the driver tests it before calling [apply]. *)
Definition legal (self other : Side) (start steps : Z) : Prop :=
  Z.testbit (getOptions self other steps) start = true.

(** ** The monad of [apply] *)

(** The two [Side&] parameters. *)
Record Refs : Type := mkRefs {
  ref_self : Side;
  ref_other : Side
}.

Inductive who : Type := Self | Other.

Definition deref (w : who) (g : Refs) : Side :=
  match w with Self => ref_self g | Other => ref_other g end.

Definition assign (w : who) (s : Side) (g : Refs) : Refs :=
  match w with
  | Self => mkRefs s (ref_other g)
  | Other => mkRefs (ref_self g) s
  end.

(** A computation transforms the referenced sides and either returns a
    value or stops with [std::out_of_range] ([None]); what was written
    before a throw stays written. *)
Definition M (A : Type) : Type := Refs -> Refs * option A.

Definition ret {A} (a : A) : M A := fun g => (g, Some a).
Definition throw {A} : M A := fun g => (g, None).
Definition bind {A B} (m : M A) (f : A -> M B) : M B :=
  fun g =>
    match m g with
    | (g', Some a) => f a g'
    | (g', None) => (g', None)
    end.

Declare Scope ur_scope.
Delimit Scope ur_scope with ur.
Notation "x <- m ;; k" := (bind m (fun x => k))
  (at level 61, m at next level, right associativity) : ur_scope.
Notation "m ;; k" := (bind m (fun _ => k))
  (at level 61, right associativity) : ur_scope.
Local Open Scope ur_scope.

Definition when (c : bool) (m : M unit) : M unit :=
  if c then m else ret tt.

(** Field accesses through a reference. *)
Definition get_remaining (w : who) : M Z :=
  fun g => (g, Some (remaining (deref w g))).

Definition put_remaining (w : who) (r : Z) : M unit :=
  fun g => (assign w (mkSide r (occupied (deref w g))) g, Some tt).

Definition get_occupied (w : who) : M Z :=
  fun g => (g, Some (occupied (deref w g))).

Definition put_occupied (w : who) (b : Z) : M unit :=
  fun g => (assign w (mkSide (remaining (deref w g)) b) g, Some tt).

(** [w.remaining--] and [w.remaining++] on a [uint16_t]. *)
Definition decr_remaining (w : who) : M unit :=
  r <- get_remaining w ;; put_remaining w (u16 (r - 1)).
Definition incr_remaining (w : who) : M unit :=
  r <- get_remaining w ;; put_remaining w (u16 (r + 1)).

(** [w.occupied.reset(pos)], [w.occupied.set(pos)], [w.occupied.test(pos)]:
    each checks [pos] against the size first. *)
Definition reset (w : who) (pos : Z) : M unit :=
  if pos <? Bitset.size
  then b <- get_occupied w ;; put_occupied w (Z.clearbit b pos)
  else throw.

Definition set (w : who) (pos : Z) : M unit :=
  if pos <? Bitset.size
  then b <- get_occupied w ;; put_occupied w (Z.setbit b pos)
  else throw.

Definition test (w : who) (pos : Z) : M bool :=
  if pos <? Bitset.size
  then b <- get_occupied w ;; ret (Z.testbit b pos)
  else throw.

(** ** [apply] *)

Definition apply (start steps : Z) : M bool :=
  let end_ := u8 (start + steps) in
  (* Pick up the piece from the start of the move... *)
  (if start =? 0
   then decr_remaining Self ;;
        r <- get_remaining Self ;;
        when (r =? 0) (reset Self 0)
   else reset Self start) ;;
  (* ...and place it at the end of the move. *)
  when (end_ <? 15) (set Self end_) ;;
  (* Reset the opponent's piece if we land on them in the middle. *)
  hit <- (if (5 <=? end_) && (end_ <=? 12) then test Other end_ else ret false) ;;
  when hit (reset Other end_ ;; incr_remaining Other ;; set Other 0) ;;
  (* Go again if we ended on a rosette. *)
  ret ((end_ =? 4) || (end_ =? 8) || (end_ =? 14)).

(** [apply(self, other, start, steps)] on two distinct objects. *)
Definition run_apply (self other : Side) (start steps : Z) : Refs * option bool :=
  apply start steps (mkRefs self other).

(** ** [_verifySides] *)

Definition _verifySides (self other : Side) : bool :=
  Bitset.band (Bitset.band (occupied self) (occupied other)) (Bitset.of_ull 0x1FE0) =? 0.

(** ** The effects of [apply], one by one *)

(** The three visible effects of [apply], as functions of the sides. *)
Definition pick_up (self : Side) (start : Z) : Side :=
  if start =? 0
  then let r := u16 (remaining self - 1) in
       mkSide r (if r =? 0 then Z.clearbit (occupied self) 0 else occupied self)
  else mkSide (remaining self) (Z.clearbit (occupied self) start).

Definition put_down (self : Side) (end_ : Z) : Side :=
  if end_ <? 15 then mkSide (remaining self) (Z.setbit (occupied self) end_) else self.

Definition lands_on (other : Side) (end_ : Z) : bool :=
  (5 <=? end_) && (end_ <=? 12) && Z.testbit (occupied other) end_.

Definition send_back (other : Side) (end_ : Z) : Side :=
  mkSide (u16 (remaining other + 1)) (Z.setbit (Z.clearbit (occupied other) end_) 0).

Definition rosette (end_ : Z) : bool :=
  (end_ =? 4) || (end_ =? 8) || (end_ =? 14).

Ltac unfold_M :=
  cbv [run_apply apply bind ret throw when reset set test decr_remaining
       incr_remaining get_remaining put_remaining get_occupied put_occupied
       deref assign ref_self ref_other remaining occupied Bitset.size].

(** ** The driver *)

Definition get_side (w : who) : M Side := fun g => (g, Some (deref w g)).

(** [Agent::INVALID]. *)
Definition INVALID : Z := 15.

(** [playOneRoll], the roll [steps] and the agent's answer [start] given. *)
Definition playOneRoll (steps start : Z) : M bool :=
  if steps =? 0 then ret false
  else
    self <- get_side Self ;;
    other <- get_side Other ;;
    let options := getOptions self other steps in
    if options =? 0 then ret false
    else if (start =? INVALID) || negb (Z.testbit options start) then ret false
    else apply start steps.

(** The state of [playOneGame]'s loop, with the tiles each player has borne
    off counted beside it. *)
Record Game : Type := mkGame {
  g_left : Side;
  g_right : Side;
  current : bool;
  off_left : Z;
  off_right : Z
}.

Definition borne_off (self other : Side) (steps start : Z) : Z :=
  if Z.testbit (getOptions self other steps) start && (start + steps =? 15)
  then 1 else 0.

(** One iteration of the loop of [playOneGame]. *)
Definition iteration (steps start : Z) (g : Game) : option Game :=
  let self := if current g then g_left g else g_right g in
  let other := if current g then g_right g else g_left g in
  let off := borne_off self other steps start in
  match playOneRoll steps start (mkRefs self other) with
  | (refs, Some again) =>
      let next := negb (xorb (current g) again) in
      Some (if current g
            then mkGame (ref_self refs) (ref_other refs) next
                        (off_left g + off) (off_right g)
            else mkGame (ref_other refs) (ref_self refs) next
                        (off_left g) (off_right g + off))
  | (_, None) => None
  end.

(** The states the loop goes through, for any rolls and any agents. *)
Inductive reachable : Game -> Prop :=
| reach_start : reachable (mkGame START START true 0 0)
| reach_next (g g' : Game) (steps start : Z) :
    reachable g ->
    g_left g <> COMPLETE -> g_right g <> COMPLETE ->
    0 <= steps <= 4 -> 0 <= start < 256 ->
    iteration steps start g = Some g' ->
    reachable g'.

(** ** Vocabulary of the properties *)

(** The bitset holding exactly the positions of a list. *)
Definition bits_of (ps : list Z) : Z :=
  fold_right (fun p b => Z.setbit b p) 0 ps.

(** Both sides have a tile at position [p]. *)
Definition both_at (self other : Side) (p : Z) : Prop :=
  Z.testbit (occupied self) p = true /\ Z.testbit (occupied other) p = true.

(** No cell of the shared middle lane, positions 5 to 12, holds a tile of
    each side. *)
Definition middle_clear (self other : Side) : Prop :=
  forall p, 5 <= p <= 12 -> ~ both_at self other p.

(** The same with the central rosette left out, as the specification of the
    validity checker words it. *)
Definition middle_clear_but_rosette (self other : Side) : Prop :=
  forall p, 5 <= p <= 12 -> p <> 8 -> ~ both_at self other p.

(** The score [display] shows for a side,
    [TILES - remaining - (occupied >> 1).count()], an expression of type
    [size_t] (64 bits). *)
Definition score (s : Side) : Z :=
  (TILES - remaining s - Bitset.count (Bitset.shr (occupied s) 1)) mod 2 ^ 64.

(** What holds of a side together with its count of tiles borne off: the
    pile count fits its type, bit 15 is unused, bit 0 mirrors the pile, and
    no tile is lost. *)
Definition side_inv (s : Side) (off : Z) : Prop :=
  0 <= remaining s < 2 ^ 16
  /\ 0 <= occupied s < 2 ^ 15
  /\ pile_flag s
  /\ 0 <= off
  /\ remaining s + on_path s + off = TILES.

Definition game_inv (g : Game) : Prop :=
  side_inv (g_left g) (off_left g)
  /\ side_inv (g_right g) (off_right g)
  /\ middle_clear (g_left g) (g_right g).

(** ** Agents *)

(** An agent answers a start position (a [Position]) from the two sides, the
    roll and the options; its name only goes to the log. *)
Record Agent : Type := mkAgent {
  getMove : Side -> Side -> Z -> Z -> Z
}.

(** The positions the agents' loops visit, [0] up to [14] and [14] down to
    [0]. *)
Definition upward : list Z := map Z.of_nat (seq 0 15).
Definition downward : list Z := map (fun k => 14 - Z.of_nat k) (seq 0 15).

(** [for (i ...) { if (options.test(i)) return i; }  return INVALID;] *)
Definition first_set (order : list Z) (options : Z) : Z :=
  match find (Z.testbit options) order with
  | Some i => i
  | None => INVALID
  end.

Definition FarthestAgent : Agent :=
  mkAgent (fun _ _ _ options => first_set upward options).

Definition ClosestAgent : Agent :=
  mkAgent (fun _ _ _ options => first_set downward options).

(** An agent whose answers fit a [Position]. *)
Definition Agent_repr (player : Agent) : Prop :=
  forall self other steps options, 0 <= getMove player self other steps options < 256.

(** ** [playOneRoll] and [playOneGame] with their agents *)

(** [playOneRoll], the roll [steps] given: the agent is asked only when
    there is an option. *)
Definition playOneRollBy (player : Agent) (steps : Z) : M bool :=
  if steps =? 0 then ret false
  else
    self <- get_side Self ;;
    other <- get_side Other ;;
    let options := getOptions self other steps in
    if options =? 0 then ret false
    else
      let start := getMove player self other steps options in
      if (start =? INVALID) || negb (Z.testbit options start) then ret false
      else apply start steps.

(** [operator==] on sides. *)
Definition Side_eqb (a b : Side) : bool :=
  (remaining a =? remaining b) && (occupied a =? occupied b).

Definition u64 (z : Z) : Z := z mod 2 ^ 64.

(** How a run of [playOneGame] over a finite supply of rolls ends: the loop
    exits with a side complete, or the rolls run out first, or an exception
    escapes. *)
Inductive Ending : Type :=
| Finished (left_ right_ : Side) (current : bool) (rolls : Z)
| Unfinished (left_ right_ : Side) (current : bool) (rolls : Z)
| Threw.

(** The loop of [playOneGame], the rolls of [getRandomRoll] given in the
    order they are drawn. *)
Fixpoint playOneGame_loop (first second : Agent) (dice : list Z)
    (left_ right_ : Side) (current : bool) (rolls : Z) : Ending :=
  if negb (Side_eqb left_ COMPLETE) && negb (Side_eqb right_ COMPLETE)
  then
    match dice with
    | [] => Unfinished left_ right_ current rolls
    | steps :: dice' =>
        let player := if current then first else second in
        let refs := if current then mkRefs left_ right_ else mkRefs right_ left_ in
        match playOneRollBy player steps refs with
        | (refs', Some again) =>
            let left' := if current then ref_self refs' else ref_other refs' in
            let right' := if current then ref_other refs' else ref_self refs' in
            playOneGame_loop first second dice' left' right'
                             (negb (xorb current again)) (u64 (rolls + 1))
        | (_, None) => Threw
        end
    end
  else Finished left_ right_ current rolls.

(** [playOneGame]: whether the first player won, when the rolls given
    finish the game. *)
Definition playOneGame (first second : Agent) (dice : list Z) : option bool :=
  match playOneGame_loop first second dice START START true 0 with
  | Finished left_ _ _ _ => Some (Side_eqb left_ COMPLETE)
  | _ => None
  end.

(** ** [display] *)

(** A [char] is the byte it holds. *)
Definition chr (c : ascii) : Z := Z.of_N (N_of_ascii c).

(** [char content[] = "....00..\n........\n....00..";], the terminating NUL
    left implicit. *)
Definition blank : list Z :=
  map chr ["."; "."; "."; "."; "0"; "0"; "."; "."; "010";
           "."; "."; "."; "."; "."; "."; "."; "."; "010";
           "."; "."; "."; "."; "0"; "0"; "."; "."]%char.

(** The path of a game piece through the string. *)
Definition topPath : list nat :=
  [4; 3; 2; 1; 0; 9; 10; 11; 12; 13; 14; 15; 16; 7; 6; 5]%nat.
Definition bottomPath : list nat :=
  [22; 21; 20; 19; 18; 9; 10; 11; 12; 13; 14; 15; 16; 25; 24; 23]%nat.

(** [path[i]], [content[k]] and [content[k] = c]. *)
Definition at_path (way : list nat) (i : Z) : nat := nth (Z.to_nat i) way 0%nat.

Definition char_at (content : list Z) (k : nat) : Z := nth k content 0.

Fixpoint store (content : list Z) (k : nat) (c : Z) : list Z :=
  match content, k with
  | [], _ => []
  | _ :: rest, O => c :: rest
  | c0 :: rest, S k' => c0 :: store rest k' c
  end.

(** [content[k] += v], the sum narrowed to a [char]. *)
Definition add_char (content : list Z) (k : nat) (v : Z) : list Z :=
  store content k (u8 (char_at content k + v)).

(** The counters: pile and score of each player. *)
Definition counters (top bottom : Side) : list Z :=
  let content := blank in
  let content := add_char content (at_path topPath 0) (remaining top) in
  let content := add_char content (at_path bottomPath 0) (remaining bottom) in
  let content := add_char content (at_path topPath 15) (score top) in
  let content := add_char content (at_path bottomPath 15) (score bottom) in
  content.

(** The body of the loop over the positions 1 to 14. *)
Definition mark (top bottom : Side) (content : list Z) (i : Z) : list Z :=
  let content :=
    if Z.testbit (occupied top) i
    then store content (at_path topPath i) (chr "T") else content in
  if Z.testbit (occupied bottom) i
  then store content (at_path bottomPath i) (chr "B") else content.

(** The array [display] has built when it prints. *)
Definition display_content (top bottom : Side) : list Z :=
  fold_left (mark top bottom) path (counters top bottom).

(** What [operator<<] prints of a [char] array: the bytes before the first
    NUL. *)
Fixpoint c_str (content : list Z) : list Z :=
  match content with
  | [] => []
  | c :: rest => if c =? 0 then [] else c :: c_str rest
  end.

(** [display]: the text sent to [std::cout], [std::endl] included. *)
Definition display (top bottom : Side) : list Z :=
  c_str (display_content top bottom) ++ [chr "010"].

(** A cell of the shared middle lane. *)
Definition shared (i : Z) : bool := (5 <=? i) && (i <=? 12).

(** What the loop leaves in cell [k], given what was there: a mark of the
    bottom player over a mark of the top player. *)
Definition mark_cell (top bottom : Z -> bool) (k : nat) (x : Z) (i : Z) : Z :=
  if (k =? at_path bottomPath i)%nat && bottom i then chr "B"
  else if (k =? at_path topPath i)%nat && top i then chr "T"
  else x.



(** The sum of the positions among [ps] that a bitset holds. *)
Fixpoint weight_at (ps : list Z) (b : Z) : Z :=
  match ps with
  | [] => 0
  | p :: ps' => p * Z.b2z (Z.testbit b p) + weight_at ps' b
  end.

(** How far a side has come: each tile on the path counts its position,
    each tile borne off counts 15, a tile in the pile counts nothing. *)
Definition progress (s : Side) (off : Z) : Z :=
  weight_at path (occupied s) + 15 * off.

(** * Properties *)

(** ** Runs *)

(** A capture on position 9, from position 5 with a roll of 4. *)
Example capture_on_nine :
  let self := mkSide 0 (bits_of [5]) in
  let other := mkSide 3 (bits_of [0; 9]) in
  getOptions self other 4 = bits_of [5]
  /\ run_apply self other 5 4 =
       (mkRefs (mkSide 0 (bits_of [9])) (mkSide 4 (bits_of [0])), Some false).
Proof. split; reflexivity. Qed.

(** A roll of 0 offers nothing; a start outside the bitset makes [apply]
    throw with both sides as they were. *)
Example roll_of_zero : getOptions START START 0 = 0.
Proof. reflexivity. Qed.

Example start_out_of_range :
  run_apply START START 16 4 = (mkRefs START START, None).
Proof. reflexivity. Qed.

(** Entering the last tile of the pile clears bit 0; bearing off leaves no
    bit behind. *)
Example last_tile_enters :
  run_apply (mkSide 1 (bits_of [0; 7])) START 0 2 =
    (mkRefs (mkSide 0 (bits_of [2; 7])) START, Some false).
Proof. reflexivity. Qed.

Example bearing_off :
  run_apply (mkSide 0 (bits_of [13])) START 13 2 =
    (mkRefs (mkSide 0 0) START, Some false).
Proof. reflexivity. Qed.

(** ** Bits of the masks *)

Lemma testbit_mask15 (p : Z) :
  Z.testbit (Bitset.of_ull 0x7FFF) p = (0 <=? p) && (p <? 15).
Proof.
  unfold Bitset.of_ull, Bitset.size.
  change 0x7FFF with (Z.ones 15).
  rewrite Z.land_spec, !Z.testbit_ones by lia.
  destruct (Z.leb_spec 0 p), (Z.ltb_spec p 15), (Z.ltb_spec p 16); simpl; lia || reflexivity.
Qed.

Lemma testbit_bnot (b p : Z) :
  0 <= p -> Z.testbit (Bitset.bnot b) p = xorb (Z.testbit b p) (p <? 16).
Proof.
  intros Hp. unfold Bitset.bnot, Bitset.size.
  rewrite Z.lxor_spec, Z.testbit_ones by lia.
  destruct (Z.leb_spec 0 p); [reflexivity | lia].
Qed.

Lemma testbit_rosette_mask (p : Z) :
  0 <= p -> Z.testbit (Bitset.of_ull 0x0100) p = (p =? 8).
Proof.
  intros Hp. unfold Bitset.of_ull, Bitset.size.
  change 0x0100 with (2 ^ 8).
  rewrite Z.land_spec, Z.pow2_bits_eqb, Z.testbit_ones by lia.
  rewrite (Z.eqb_sym 8 p).
  destruct (Z.eqb_spec p 8), (Z.leb_spec 0 p), (Z.ltb_spec p 16); simpl; lia || reflexivity.
Qed.

Lemma testbit_rule4 (steps p : Z) :
  0 <= steps -> 0 <= p ->
  Z.testbit (rule4 steps) p = (p + steps <? 16).
Proof.
  intros Hs Hp. unfold rule4, Bitset.of_ull, Bitset.size.
  change 0xFFFF with (Z.ones 16).
  rewrite Z.land_spec, Z.shiftr_spec, !Z.testbit_ones by lia.
  destruct (Z.leb_spec 0 (p + steps)), (Z.ltb_spec (p + steps) 16),
    (Z.leb_spec 0 p), (Z.ltb_spec p 16); simpl; lia || reflexivity.
Qed.

(** Bit [p] of the result of [getOptions], rule by rule. *)
Lemma getOptions_spec (self other : Side) (steps p : Z) :
  0 <= steps -> 0 <= p ->
  Z.testbit (getOptions self other steps) p =
    (p <? 15)
    && Z.testbit (occupied self) p
    && negb (Z.testbit (occupied self) p && Z.testbit (occupied self) (p + steps))
    && negb ((p =? 8) && Z.testbit (occupied other) 8)
    && (p + steps <? 16).
Proof.
  intros Hs Hp.
  unfold getOptions, rule1, rule2, rule3, Bitset.band.
  rewrite !Z.land_spec, testbit_mask15, testbit_rule4, !testbit_bnot by lia.
  rewrite !Z.land_spec, testbit_rosette_mask by lia.
  unfold Bitset.shr. rewrite Z.shiftr_spec by lia.
  destruct (Z.leb_spec 0 p); [| lia].
  destruct (Z.ltb_spec p 15), (Z.ltb_spec p 16); try lia; simpl;
    try rewrite !andb_false_r; try reflexivity.
  destruct (Z.eqb_spec p 8) as [-> |]; simpl.
  - destruct (Z.testbit (occupied self) 8), (Z.testbit (occupied self) (8 + steps)),
      (Z.testbit (occupied other) 8); reflexivity.
  - destruct (Z.testbit (occupied self) p), (Z.testbit (occupied self) (p + steps));
      reflexivity.
Qed.

Lemma legal_inv (self other : Side) (start steps : Z) :
  0 <= steps -> legal self other start steps ->
  0 <= start <= 14
  /\ start + steps <= 15
  /\ Z.testbit (occupied self) start = true
  /\ Z.testbit (occupied self) (start + steps) = false
  /\ (start = 8 -> Z.testbit (occupied other) 8 = false).
Proof.
  intros Hs H. unfold legal in H.
  assert (Hp : 0 <= start).
  { destruct (Z.leb_spec 0 start); [assumption |].
    rewrite Z.testbit_neg_r in H by lia. discriminate. }
  rewrite getOptions_spec in H by lia.
  repeat (apply andb_prop in H; destruct H as [H ?]).
  repeat match goal with
         | E : (_ <? _) = true |- _ => apply Z.ltb_lt in E
         | E : negb _ = true |- _ => apply negb_true_iff in E
         end.
  repeat split; try lia; try assumption.
  - match goal with E : Z.testbit (occupied self) start = true |- _ => rewrite E in * end.
    simpl in *. assumption.
  - intros ->. simpl in *. assumption.
Qed.

(** ** What [apply] computes *)

Lemma u8_range (z : Z) : 0 <= u8 z < 256.
Proof. unfold u8. change (2 ^ 8) with 256. apply Z.mod_pos_bound. lia. Qed.

Lemma u8_small (z : Z) : 0 <= z < 256 -> u8 z = z.
Proof. intros H. unfold u8. apply Z.mod_small. change (2 ^ 8) with 256. lia. Qed.

Lemma u16_small (z : Z) : 0 <= z < 65536 -> u16 z = z.
Proof. intros H. unfold u16. apply Z.mod_small. change (2 ^ 16) with 65536. lia. Qed.

(** With a start position inside the bitset, [apply] returns. *)
Lemma apply_returns (self other : Side) (start steps : Z) :
  start < 16 ->
  let end_ := u8 (start + steps) in
  run_apply self other start steps =
    (mkRefs (put_down (pick_up self start) end_)
            (if lands_on other end_ then send_back other end_ else other),
     Some (rosette end_)).
Proof.
  intros Hstart end_.
  pose proof (u8_range (start + steps)) as He. fold end_ in He.
  destruct self as [r o], other as [r' o'].
  unfold_M. fold end_.
  unfold put_down, pick_up, lands_on, send_back, rosette; simpl.
  destruct (Z.eqb_spec start 0) as [-> | Hne].
  - destruct (Z.eqb_spec (u16 (r - 1)) 0) as [-> | ?];
      destruct (Z.ltb_spec end_ 15);
      destruct (Z.leb_spec 5 end_), (Z.leb_spec end_ 12); simpl;
      destruct (Z.ltb_spec end_ 16); try lia; simpl;
      try destruct (Z.testbit o' end_); reflexivity.
  - destruct (Z.ltb_spec start 16); [| lia].
    destruct (Z.ltb_spec end_ 15);
      destruct (Z.leb_spec 5 end_), (Z.leb_spec end_ 12); simpl;
      destruct (Z.ltb_spec end_ 16); try lia; simpl;
      try destruct (Z.testbit o' end_); reflexivity.
Qed.

(** With a start position outside the bitset, [reset] throws before anything
    is written. *)
Lemma apply_throws (self other : Side) (start steps : Z) :
  16 <= start ->
  run_apply self other start steps = (mkRefs self other, None).
Proof.
  intros Hstart. unfold_M.
  destruct (Z.eqb_spec start 0); [lia |].
  destruct (Z.ltb_spec start 16); [lia | reflexivity].
Qed.

(** ** Counting tiles *)

Lemma count_at_ext (ps : list Z) (a b : Z) :
  (forall p, In p ps -> Z.testbit a p = Z.testbit b p) ->
  Bitset.count_at ps a = Bitset.count_at ps b.
Proof.
  induction ps as [| q qs IH]; simpl; intros H; [reflexivity |].
  rewrite (H q) by (left; reflexivity).
  rewrite IH by (intros; apply H; right; assumption).
  reflexivity.
Qed.

Lemma count_at_setbit_out (ps : list Z) (b k : Z) :
  0 <= k -> ~ In k ps ->
  Bitset.count_at ps (Z.setbit b k) = Bitset.count_at ps b.
Proof.
  intros Hk Hout. apply count_at_ext. intros p Hp.
  rewrite Z.setbit_neq; [reflexivity | assumption |].
  intros ->. contradiction.
Qed.

Lemma count_at_clearbit_out (ps : list Z) (b k : Z) :
  ~ In k ps ->
  Bitset.count_at ps (Z.clearbit b k) = Bitset.count_at ps b.
Proof.
  intros Hout. apply count_at_ext. intros p Hp.
  rewrite Z.clearbit_neq; [reflexivity |].
  intros ->. contradiction.
Qed.

Lemma count_at_setbit_in (ps : list Z) (b k : Z) :
  NoDup ps -> 0 <= k -> In k ps -> Z.testbit b k = false ->
  Bitset.count_at ps (Z.setbit b k) = Bitset.count_at ps b + 1.
Proof.
  intros Hnd Hk Hin Hclear.
  induction Hnd as [| q qs Hq Hqs IH]; simpl; [contradiction |].
  destruct Hin as [-> | Hin].
  - rewrite Z.setbit_eq, Hclear by assumption.
    rewrite count_at_setbit_out by assumption. unfold Z.b2z. lia.
  - rewrite Z.setbit_neq by (try assumption; intros ->; contradiction).
    rewrite IH by assumption. lia.
Qed.

Lemma count_at_clearbit_in (ps : list Z) (b k : Z) :
  NoDup ps -> In k ps -> Z.testbit b k = true ->
  Bitset.count_at ps (Z.clearbit b k) = Bitset.count_at ps b - 1.
Proof.
  intros Hnd Hin Hset.
  induction Hnd as [| q qs Hq Hqs IH]; simpl; [contradiction |].
  destruct Hin as [-> | Hin].
  - rewrite Z.clearbit_eq, Hset.
    rewrite count_at_clearbit_out by assumption. unfold Z.b2z. lia.
  - rewrite Z.clearbit_neq by (intros ->; contradiction).
    rewrite IH by assumption. lia.
Qed.

Lemma path_NoDup : NoDup path.
Proof.
  unfold path. apply Injective_map_NoDup; [| apply seq_NoDup].
  intros x y H. apply Nat2Z.inj. exact H.
Qed.

Lemma in_path (p : Z) : In p path <-> 1 <= p <= 14.
Proof.
  unfold path. rewrite in_map_iff. split.
  - intros (n & <- & Hn). apply in_seq in Hn. lia.
  - intros H. exists (Z.to_nat p). split; [lia |]. apply in_seq. lia.
Qed.

(** ** Bits after [apply] *)

Lemma rosette_spec (e : Z) : rosette e = true <-> In e [4; 8; 14].
Proof.
  unfold rosette. simpl. rewrite !orb_true_iff, !Z.eqb_eq. intuition lia.
Qed.

Lemma testbit_pick_up (self : Side) (start p : Z) :
  1 <= p ->
  Z.testbit (occupied (pick_up self start)) p =
    Z.testbit (occupied self) p && negb (start =? p).
Proof.
  intros Hp. unfold pick_up.
  destruct (Z.eqb_spec start 0) as [-> | Hne]; cbn [occupied].
  - destruct (Z.eqb_spec 0 p); [lia |]. simpl negb. rewrite andb_true_r.
    destruct (u16 (remaining self - 1) =? 0); [| reflexivity].
    apply Z.clearbit_neq. lia.
  - apply Z.clearbit_eqb.
Qed.

Lemma testbit_put_down (s : Side) (e p : Z) :
  0 <= e ->
  Z.testbit (occupied (put_down s e)) p =
    ((e <? 15) && (e =? p)) || Z.testbit (occupied s) p.
Proof.
  intros He. unfold put_down.
  destruct (Z.ltb_spec e 15); simpl; [| reflexivity].
  apply Z.setbit_eqb. assumption.
Qed.

Lemma testbit_send_back (o : Side) (e p : Z) :
  1 <= p ->
  Z.testbit (occupied (send_back o e)) p =
    Z.testbit (occupied o) p && negb (e =? p).
Proof.
  intros Hp. unfold send_back; simpl.
  rewrite Z.setbit_neq by lia. apply Z.clearbit_eqb.
Qed.

(** A legal move makes [apply] return, with the destination unwrapped. *)
Lemma apply_legal (self other : Side) (start steps : Z) :
  0 <= steps -> legal self other start steps ->
  let end_ := start + steps in
  run_apply self other start steps =
    (mkRefs (put_down (pick_up self start) end_)
            (if lands_on other end_ then send_back other end_ else other),
     Some (rosette end_)).
Proof.
  intros Hs Hl end_.
  destruct (legal_inv _ _ _ _ Hs Hl) as (Hstart & Hend & _).
  rewrite apply_returns by lia.
  rewrite u8_small by lia. reflexivity.
Qed.

(** ** The move generator *)

(** Rule 3 masks the start position 8, never a destination: the mask is not
    shifted by [steps], unlike the one of rule 2. *)
Lemma rule3_spec (other : Side) (p : Z) :
  0 <= p < 16 ->
  Z.testbit (rule3 other) p = negb ((p =? 8) && Z.testbit (occupied other) 8).
Proof.
  intros Hp. unfold rule3, Bitset.band.
  rewrite testbit_bnot, Z.land_spec, testbit_rosette_mask by lia.
  destruct (Z.ltb_spec p 16); [| lia].
  destruct (Z.eqb_spec p 8) as [-> |]; simpl.
  - destruct (Z.testbit (occupied other) 8); reflexivity.
  - reflexivity.
Qed.

(** X3.  Whatever the opponent holds, a tile standing [steps] cells before
    the central rosette may move onto it when the mover has no tile there. *)
Lemma rosette_open_to_landing (self other : Side) (steps : Z) :
  1 <= steps <= 4 ->
  Z.testbit (occupied self) (8 - steps) = true ->
  Z.testbit (occupied self) 8 = false ->
  legal self other (8 - steps) steps.
Proof.
  intros Hs Hp H8. unfold legal.
  rewrite getOptions_spec by lia.
  replace (8 - steps + steps) with 8 by lia.
  rewrite Hp, H8.
  destruct (Z.ltb_spec (8 - steps) 15), (Z.eqb_spec (8 - steps) 8);
    reflexivity || lia.
Qed.

Lemma rosette_open_to_landing_witness :
  legal (mkSide 6 (bits_of [0; 4])) (mkSide 6 (bits_of [0; 8])) (8 - 4) 4.
Proof.
  apply (rosette_open_to_landing (mkSide 6 (bits_of [0; 4])) (mkSide 6 (bits_of [0; 8])) 4);
    [lia | reflexivity | reflexivity].
Defined.

(** C1.  The claim: when the opponent occupies position 8, [getOptions]
    offers no start [p] with [p + steps = 8].  The code offers one: with the
    mover on {0, 4}, the opponent on {0, 8} and a roll of 4, start 4 is in
    the result, its destination is 8, and [apply] then captures the tile on
    the central rosette. *)
Theorem rosette_sanctuary_broken :
  let self := mkSide 6 (bits_of [0; 4]) in
  let other := mkSide 6 (bits_of [0; 8]) in
  Z.testbit (occupied other) 8 = true
  /\ Z.testbit (getOptions self other 4) 4 = true
  /\ 4 + 4 = 8
  /\ run_apply self other 4 4 =
       (mkRefs (mkSide 6 (bits_of [0; 8])) (mkSide 7 (bits_of [0])), Some true).
Proof. repeat split. Qed.

(** C7.  No self-collision: for a roll of 1 to 4, a start position offered
    by [getOptions] never has its destination on a tile of the mover. *)
Theorem getOptions_no_self_collision (self other : Side) (steps p : Z) :
  1 <= steps <= 4 ->
  Z.testbit (getOptions self other steps) p = true ->
  Z.testbit (occupied self) (p + steps) = false.
Proof.
  intros Hs Hl.
  destruct (legal_inv self other p steps) as (_ & _ & _ & H & _);
    [lia | exact Hl | exact H].
Qed.

Lemma getOptions_no_self_collision_witness :
  Z.testbit (occupied (mkSide 5 (bits_of [0; 2; 6]))) (2 + 3) = false.
Proof.
  apply (getOptions_no_self_collision
           (mkSide 5 (bits_of [0; 2; 6])) START 3 2); [lia | reflexivity].
Defined.

(** C8.  No overshoot: for a roll of 0 to 4, every start position offered by
    [getOptions] has its destination at most 15; the mask of rule 4 keeps
    the starts whose destination is exactly 15, and such a start is offered
    whenever the mover has a tile there (bit 15 being unused). *)
Theorem getOptions_no_overshoot (self other : Side) (steps : Z) :
  0 <= steps <= 4 ->
  (forall p, Z.testbit (getOptions self other steps) p = true -> p + steps <= 15)
  /\ (forall p, 0 <= p -> p + steps = 15 -> Z.testbit (rule4 steps) p = true)
  /\ (forall p, 1 <= steps -> p + steps = 15 ->
        Z.testbit (occupied self) p = true ->
        Z.testbit (occupied self) 15 = false ->
        Z.testbit (getOptions self other steps) p = true).
Proof.
  intros Hs. split; [| split].
  - intros p Hl.
    destruct (legal_inv self other p steps) as (_ & H & _); [lia | exact Hl | exact H].
  - intros p Hp H15. rewrite testbit_rule4 by lia. apply Z.ltb_lt. lia.
  - intros p H1 H15 Hp Hfree.
    rewrite getOptions_spec by lia.
    rewrite H15, Hp, Hfree.
    destruct (Z.ltb_spec p 15), (Z.eqb_spec p 8); reflexivity || lia.
Qed.

Lemma getOptions_no_overshoot_witness :
  Z.testbit (getOptions (mkSide 0 (bits_of [12])) START 3) 12 = true.
Proof.
  apply (getOptions_no_overshoot (mkSide 0 (bits_of [12])) START 3);
    [lia | lia | reflexivity | reflexivity | reflexivity].
Defined.

(** ** The validity checker *)

Lemma testbit_middle_mask (p : Z) :
  0 <= p -> Z.testbit (Bitset.of_ull 0x1FE0) p = (5 <=? p) && (p <=? 12).
Proof.
  intros Hp. unfold Bitset.of_ull, Bitset.size.
  change 0x1FE0 with (Z.shiftl (Z.ones 8) 5).
  rewrite Z.land_spec, Z.shiftl_spec, !Z.testbit_ones by lia.
  destruct (Z.leb_spec 0 (p - 5)), (Z.ltb_spec (p - 5) 8), (Z.leb_spec 0 p),
    (Z.ltb_spec p 16), (Z.leb_spec 5 p), (Z.leb_spec p 12); simpl; lia || reflexivity.
Qed.

Lemma _verifySides_spec (self other : Side) :
  _verifySides self other = true <-> middle_clear self other.
Proof.
  unfold _verifySides, middle_clear, both_at, Bitset.band.
  rewrite Z.eqb_eq. split.
  - intros H p Hp [Hs Ho].
    apply (f_equal (fun z => Z.testbit z p)) in H.
    rewrite !Z.land_spec, testbit_middle_mask, Z.bits_0, Hs, Ho in H by lia.
    destruct (Z.leb_spec 5 p), (Z.leb_spec p 12); discriminate || lia.
  - intros H. apply Z.bits_inj'. intros p Hp.
    rewrite !Z.land_spec, testbit_middle_mask, Z.bits_0 by lia.
    destruct (Z.leb_spec 5 p), (Z.leb_spec p 12); simpl;
      rewrite ?andb_false_r; try reflexivity.
    destruct (Z.testbit (occupied self) p) eqn:Hs,
             (Z.testbit (occupied other) p) eqn:Ho; try reflexivity.
    exfalso. apply (H p); [lia | split; assumption].
Qed.

(** C2, as stated, fails where both sides hold the central rosette and
    nothing else of the middle lane: no shared cell other than the rosette
    is doubly occupied, and the checker answers false. *)
Lemma _verifySides_counts_rosette :
  let self := mkSide 6 (bits_of [0; 8]) in
  let other := mkSide 6 (bits_of [0; 8]) in
  middle_clear_but_rosette self other /\ _verifySides self other = false.
Proof.
  split; [| reflexivity].
  intros p Hp H8 [Hs _]. cbn [occupied] in Hs.
  change (bits_of [0; 8]) with 257 in Hs.
  assert (Hc : p = 5 \/ p = 6 \/ p = 7 \/ p = 9 \/ p = 10 \/ p = 11 \/ p = 12) by lia.
  destruct Hc as [-> | [-> | [-> | [-> | [-> | [-> | ->]]]]]]; discriminate.
Qed.

(** C2, amended.  [_verifySides] answers true exactly when no position of
    the shared middle lane 5 to 12, the central rosette 8 included, holds a
    tile of each side; both sides on position 8 make it answer false. *)
Theorem _verifySides_middle_lane (self other : Side) :
  (_verifySides self other = true <-> middle_clear self other)
  /\ (both_at self other 8 -> _verifySides self other = false).
Proof.
  split; [apply _verifySides_spec |].
  intros H8. apply not_true_is_false. intros Ht.
  apply _verifySides_spec in Ht. apply (Ht 8); [lia | exact H8].
Qed.

Lemma _verifySides_middle_lane_witness :
  _verifySides (mkSide 6 (bits_of [0; 8])) (mkSide 6 (bits_of [0; 8])) = false.
Proof.
  apply (_verifySides_middle_lane (mkSide 6 (bits_of [0; 8])) (mkSide 6 (bits_of [0; 8]))).
  split; reflexivity.
Defined.

(** ** The move applier *)

(** C9.  The opening scenario: from the two starting sides and a roll of 4,
    [getOptions] is exactly {0}; applying start 0 leaves the mover with 6
    tiles in the pile and positions {0, 4}, leaves the opponent as it was,
    and returns true. *)
Theorem opening_roll_of_four :
  let self := mkSide 7 (bits_of [0]) in
  let other := mkSide 7 (bits_of [0]) in
  getOptions self other 4 = bits_of [0]
  /\ run_apply self other 0 4 =
       (mkRefs (mkSide 6 (bits_of [0; 4])) other, Some true).
Proof. split; reflexivity. Qed.

(** C6.  Extra turn: for a legal start, [apply] returns true when the
    destination [start + steps] is one of 4, 8, 14 and false otherwise. *)
Theorem apply_goes_again_on_rosette (self other : Side) (start steps : Z) :
  0 <= steps < 256 ->
  legal self other start steps ->
  let end_ := start + steps in
  (In end_ [4; 8; 14] -> snd (run_apply self other start steps) = Some true)
  /\ (~ In end_ [4; 8; 14] -> snd (run_apply self other start steps) = Some false).
Proof.
  intros Hs Hl end_.
  rewrite apply_legal by (lia || assumption). fold end_. cbn [snd].
  pose proof (rosette_spec end_) as Hr.
  destruct (rosette end_); split; intros H.
  - reflexivity.
  - exfalso. apply H, Hr. reflexivity.
  - apply Hr in H. discriminate.
  - reflexivity.
Qed.

Lemma apply_goes_again_on_rosette_witness :
  snd (run_apply START START 0 4) = Some true
  /\ snd (run_apply START START 0 3) = Some false.
Proof.
  split.
  - apply (apply_goes_again_on_rosette START START 0 4);
      [lia | reflexivity | simpl; tauto].
  - apply (apply_goes_again_on_rosette START START 0 3);
      [lia | reflexivity | simpl; lia].
Defined.

(** C10.  Frame: when the capture condition fails, that is when the
    destination [end] computed by [apply] is outside 5 to 12 or the opponent
    has no tile there, [apply] leaves the opponent's side as it was, pile
    count and every bit, also when it stops with an exception. *)
Theorem apply_frame_other (self other : Side) (start steps : Z) :
  0 <= start < 256 -> 0 <= steps < 256 ->
  let end_ := u8 (start + steps) in
  ~ (5 <= end_ <= 12) \/ Z.testbit (occupied other) end_ = false ->
  ref_other (fst (run_apply self other start steps)) = other.
Proof.
  intros Hstart Hsteps end_ Hmiss.
  destruct (Z.lt_ge_cases start 16) as [Hin | Hout].
  - rewrite apply_returns by assumption. fold end_. cbn [fst ref_other].
    replace (lands_on other end_) with false; [reflexivity |].
    unfold lands_on. destruct Hmiss as [Hmiss | ->].
    + destruct (Z.leb_spec 5 end_), (Z.leb_spec end_ 12); reflexivity || lia.
    + rewrite andb_false_r. reflexivity.
  - rewrite apply_throws by assumption. reflexivity.
Qed.

Lemma apply_frame_other_witness :
  ref_other (fst (run_apply (mkSide 6 (bits_of [0; 3])) (mkSide 5 (bits_of [0; 5; 9])) 3 4))
  = mkSide 5 (bits_of [0; 5; 9]).
Proof.
  apply (apply_frame_other (mkSide 6 (bits_of [0; 3])) (mkSide 5 (bits_of [0; 5; 9])) 3 4);
    [lia | lia | right; reflexivity].
Defined.

(** Within the documented ranges of a position and a roll the destination
    does not wrap. *)
Lemma end_no_wrap (start steps : Z) :
  0 <= start <= 15 -> 0 <= steps <= 4 -> u8 (start + steps) = start + steps.
Proof. intros. apply u8_small. lia. Qed.

(** C3.  Capture: a legal move whose destination [end_] lies in the shared
    lane 5 to 12, is not the central rosette and holds a tile of the
    opponent makes [apply] return (false), raise the opponent's pile count
    by exactly one (the count being a [uint16_t] that the increment does not
    overflow), clear bit [end_] of the opponent and set its bit 0, all other
    bits untouched. *)
Theorem apply_captures (self other : Side) (start steps : Z) :
  Side_repr other -> remaining other + 1 < 2 ^ 16 ->
  0 <= steps < 256 ->
  legal self other start steps ->
  let end_ := start + steps in
  5 <= end_ <= 12 -> end_ <> 8 ->
  Z.testbit (occupied other) end_ = true ->
  let r := run_apply self other start steps in
  snd r = Some false
  /\ remaining (ref_other (fst r)) = remaining other + 1
  /\ Z.testbit (occupied (ref_other (fst r))) end_ = false
  /\ Z.testbit (occupied (ref_other (fst r))) 0 = true
  /\ (forall p, p <> end_ -> p <> 0 ->
        Z.testbit (occupied (ref_other (fst r))) p = Z.testbit (occupied other) p).
Proof.
  intros [Hrem _] Hfit Hs Hl end_ Hmid H8 Hocc r.
  unfold r. rewrite apply_legal by (lia || assumption). fold end_.
  cbn [fst snd ref_other].
  assert (Hland : lands_on other end_ = true).
  { unfold lands_on. rewrite Hocc.
    destruct (Z.leb_spec 5 end_), (Z.leb_spec end_ 12); reflexivity || lia. }
  rewrite Hland. unfold send_back. cbn [remaining occupied].
  repeat split.
  - unfold rosette.
    destruct (Z.eqb_spec end_ 4), (Z.eqb_spec end_ 8), (Z.eqb_spec end_ 14);
      reflexivity || lia.
  - apply u16_small. change (2 ^ 16) with 65536 in *. lia.
  - rewrite Z.setbit_neq by lia. apply Z.clearbit_eq.
  - apply Z.setbit_eq. lia.
  - intros p Hpe Hp0.
    rewrite Z.setbit_neq by lia. apply Z.clearbit_neq. lia.
Qed.

Lemma apply_captures_witness :
  let r := run_apply (mkSide 6 (bits_of [0; 5])) (mkSide 6 (bits_of [0; 9])) 5 4 in
  snd r = Some false
  /\ remaining (ref_other (fst r)) = 6 + 1
  /\ Z.testbit (occupied (ref_other (fst r))) (5 + 4) = false
  /\ Z.testbit (occupied (ref_other (fst r))) 0 = true.
Proof.
  pose proof (apply_captures (mkSide 6 (bits_of [0; 5])) (mkSide 6 (bits_of [0; 9])) 5 4)
    as H.
  cbv zeta in H.
  destruct H as (H1 & H2 & H3 & H4 & _);
    [split; simpl; lia | simpl; lia | lia | reflexivity | lia | lia | reflexivity |].
  repeat split; assumption.
Defined.

Lemma apply_keeps_middle_clear_aux (self other : Side) (start steps : Z) :
  0 <= steps ->
  middle_clear self other ->
  legal self other start steps ->
  middle_clear (put_down (pick_up self start) (start + steps))
               (if lands_on other (start + steps)
                then send_back other (start + steps) else other).
Proof.
  intros Hs Hclear Hl.
  destruct (legal_inv _ _ _ _ Hs Hl) as (Hstart & Hend & _).
  set (end_ := start + steps).
  intros p Hp [Hself Hother].
  rewrite testbit_put_down, testbit_pick_up in Hself by lia.
  destruct (Z.eqb_spec end_ p) as [-> | Hne].
  - (* the destination: a tile of the opponent there was sent back *)
    destruct (lands_on other p) eqn:Hland.
    + rewrite testbit_send_back, Z.eqb_refl, andb_false_r in Hother by lia.
      discriminate.
    + unfold lands_on in Hland. rewrite Hother in Hland.
      destruct (Z.leb_spec 5 p), (Z.leb_spec p 12); discriminate || lia.
  - (* any other cell: both tiles were there before *)
    rewrite andb_false_r in Hself. cbn [orb] in Hself.
    apply andb_prop in Hself. destruct Hself as [Hself _].
    apply (Hclear p Hp). split; [exact Hself |].
    destruct (lands_on other end_); [| exact Hother].
    rewrite testbit_send_back in Hother by lia.
    apply andb_prop in Hother. tauto.
Qed.

(** C5.  Cross-side invariant: from a state with no doubly occupied cell in
    the shared middle lane 5 to 12, a legal move makes [apply] return and
    leaves a state with no doubly occupied cell in that lane. *)
Theorem apply_keeps_middle_clear (self other : Side) (start steps : Z) :
  0 <= steps < 256 ->
  middle_clear self other ->
  legal self other start steps ->
  let r := run_apply self other start steps in
  snd r <> None /\ middle_clear (ref_self (fst r)) (ref_other (fst r)).
Proof.
  intros Hs Hclear Hl r.
  unfold r. rewrite apply_legal by (lia || assumption).
  cbn [fst snd ref_self ref_other]. split; [discriminate |].
  apply apply_keeps_middle_clear_aux; [lia | exact Hclear | exact Hl].
Qed.

Lemma apply_keeps_middle_clear_witness :
  let r := run_apply (mkSide 6 (bits_of [0; 4])) (mkSide 6 (bits_of [0; 8])) 4 4 in
  snd r <> None /\ middle_clear (ref_self (fst r)) (ref_other (fst r)).
Proof.
  apply (apply_keeps_middle_clear (mkSide 6 (bits_of [0; 4])) (mkSide 6 (bits_of [0; 8])) 4 4);
    [lia | | reflexivity].
  apply _verifySides_spec. reflexivity.
Defined.

(** ** Conservation of tiles *)

(** Tiles on the path after the mover's own move: one fewer when the tile
    came from the path and not from the pile, one more unless it was borne
    off. *)
Lemma on_path_mover (self other : Side) (start steps : Z) :
  0 <= steps -> legal self other start steps ->
  on_path (put_down (pick_up self start) (start + steps)) =
    on_path self
    - (if start =? 0 then 0 else 1)
    + (if start + steps =? 15 then 0 else 1).
Proof.
  intros Hs Hl.
  destruct (legal_inv _ _ _ _ Hs Hl) as (Hstart & Hend & Hfrom & Hto & _).
  assert (Hsteps : 1 <= steps).
  { destruct (Z.eq_dec steps 0) as [-> |]; [| lia].
    rewrite Z.add_0_r in Hto. congruence. }
  set (end_ := start + steps) in *.
  assert (Hpick : on_path (pick_up self start) =
                  on_path self - (if start =? 0 then 0 else 1)).
  { unfold on_path, pick_up.
    destruct (Z.eqb_spec start 0) as [-> | Hne]; cbn [occupied].
    - destruct (u16 (remaining self - 1) =? 0).
      + rewrite count_at_clearbit_out by (rewrite in_path; lia). lia.
      + lia.
    - apply count_at_clearbit_in;
        [apply path_NoDup | apply in_path; lia | assumption]. }
  assert (Hfree : Z.testbit (occupied (pick_up self start)) end_ = false).
  { rewrite testbit_pick_up by lia. rewrite Hto. reflexivity. }
  unfold on_path in *. unfold put_down.
  destruct (Z.eqb_spec end_ 15) as [H15 | H15].
  - destruct (Z.ltb_spec end_ 15); [lia |]. rewrite Hpick. lia.
  - destruct (Z.ltb_spec end_ 15); [| lia]. cbn [occupied].
    rewrite count_at_setbit_in;
      [rewrite Hpick; lia | apply path_NoDup | lia | apply in_path; lia | assumption].
Qed.

(** Tiles of the opponent on the path: one fewer after a capture. *)
Lemma on_path_send_back (other : Side) (end_ : Z) :
  lands_on other end_ = true ->
  on_path (send_back other end_) = on_path other - 1.
Proof.
  unfold lands_on. intros H.
  apply andb_prop in H. destruct H as [H Hocc].
  apply andb_prop in H. destruct H as [H5 H12].
  apply Z.leb_le in H5, H12.
  unfold on_path, send_back. cbn [occupied].
  rewrite count_at_setbit_out by (rewrite ?in_path; lia).
  apply count_at_clearbit_in; [apply path_NoDup | apply in_path; lia | assumption].
Qed.

(** The mover's pile: one fewer when the tile came from it. *)
Lemma remaining_mover (self other : Side) (start steps : Z) :
  0 <= steps -> Side_repr self -> pile_flag self ->
  legal self other start steps ->
  remaining (put_down (pick_up self start) (start + steps)) =
    remaining self - (if start =? 0 then 1 else 0).
Proof.
  intros Hs [Hrs _] Hflag Hl.
  destruct (legal_inv _ _ _ _ Hs Hl) as (_ & _ & Hfrom & _).
  unfold put_down, pick_up.
  destruct (Z.eqb_spec start 0) as [-> | Hne].
  - unfold pile_flag in Hflag. rewrite Hfrom in Hflag.
    symmetry in Hflag. apply Z.ltb_lt in Hflag.
    rewrite u16_small by (change (2 ^ 16) with 65536 in *; lia).
    destruct (0 + steps <? 15); reflexivity.
  - destruct (start + steps <? 15); cbn [remaining]; lia.
Qed.

Lemma on_path_nonneg (s : Side) : 0 <= on_path s.
Proof.
  unfold on_path. generalize path. intros l.
  induction l as [| q l IH]; simpl; [lia |].
  destruct (Z.testbit (occupied s) q); unfold Z.b2z; lia.
Qed.

(** C4.  Conservation: for two sides within their types' ranges, the
    mover's bit 0 agreeing with its pile (so that start 0 is offered only
    with a tile in the pile), and finished counts [fs] and [fo] kept
    outside, if pile + tiles on positions 1 to 14 + finished is TILES for
    each side, then a legal move makes [apply] return and the same holds
    afterwards for both sides, the mover's finished count growing by one
    exactly when the move ends on position 15. *)
Theorem apply_conserves_tiles (self other : Side) (start steps fs fo : Z) :
  Side_repr self -> Side_repr other -> pile_flag self ->
  0 <= steps < 256 -> 0 <= fo ->
  legal self other start steps ->
  remaining self + on_path self + fs = TILES ->
  remaining other + on_path other + fo = TILES ->
  let r := run_apply self other start steps in
  let fs' := if start + steps =? 15 then fs + 1 else fs in
  snd r <> None
  /\ remaining (ref_self (fst r)) + on_path (ref_self (fst r)) + fs' = TILES
  /\ remaining (ref_other (fst r)) + on_path (ref_other (fst r)) + fo = TILES.
Proof.
  intros Hrs [Hro _] Hflag Hs Hfo Hl Hself Hother r fs'.
  unfold r. rewrite apply_legal by (lia || assumption).
  cbn [fst snd ref_self ref_other].
  split; [discriminate |]. split.
  - rewrite (on_path_mover self other), (remaining_mover self other)
      by (lia || assumption).
    unfold fs'.
    destruct (Z.eqb_spec start 0), (Z.eqb_spec (start + steps) 15); lia.
  - destruct (lands_on other (start + steps)) eqn:Hland; [| exact Hother].
    rewrite on_path_send_back by assumption.
    unfold send_back. cbn [remaining].
    pose proof (on_path_nonneg other) as Hpos.
    rewrite u16_small by (unfold TILES in *; lia). lia.
Qed.

Lemma apply_conserves_tiles_witness :
  let r := run_apply (mkSide 5 (bits_of [0; 11])) (mkSide 6 (bits_of [0; 9])) 11 4 in
  snd r <> None
  /\ remaining (ref_self (fst r)) + on_path (ref_self (fst r)) + (1 + 1) = TILES
  /\ remaining (ref_other (fst r)) + on_path (ref_other (fst r)) + 0 = TILES.
Proof.
  apply (apply_conserves_tiles
           (mkSide 5 (bits_of [0; 11])) (mkSide 6 (bits_of [0; 9])) 11 4 1 0);
    try (split; simpl; lia); try lia; reflexivity.
Defined.

(** ** The driver *)

Lemma playOneRoll_spec (self other : Side) (steps start : Z) :
  0 <= steps ->
  playOneRoll steps start (mkRefs self other) =
    if Z.testbit (getOptions self other steps) start
    then run_apply self other start steps
    else (mkRefs self other, Some false).
Proof.
  intros Hs. unfold playOneRoll.
  destruct (Z.testbit (getOptions self other steps) start) eqn:Hl.
  - destruct (legal_inv _ _ _ _ Hs Hl) as (Hstart & Hend & Hfrom & Hto & _).
    destruct (Z.eqb_spec steps 0) as [-> | Hne].
    { rewrite Z.add_0_r in Hto. congruence. }
    cbv [bind get_side deref ref_self ref_other].
    destruct (Z.eqb_spec (getOptions self other steps) 0) as [H0 | _].
    { rewrite H0, Z.bits_0 in Hl. discriminate. }
    rewrite Hl. unfold INVALID.
    destruct (Z.eqb_spec start 15); [lia | reflexivity].
  - destruct (steps =? 0); [reflexivity |].
    cbv [bind get_side deref ref_self ref_other].
    rewrite Hl, orb_true_r.
    destruct (getOptions self other steps =? 0); reflexivity.
Qed.

(** ** Invariants of play *)

Lemma bitset_range (n b : Z) :
  0 <= n ->
  0 <= b < 2 ^ n <-> 0 <= b /\ forall p, n <= p -> Z.testbit b p = false.
Proof.
  intros Hn. split.
  - intros H. split; [lia |]. intros p Hp.
    rewrite <- (Z.mod_small b (2 ^ n)) by assumption.
    apply Z.mod_pow2_bits_high. lia.
  - intros [H0 Hhigh].
    assert (Hmod : b mod 2 ^ n = b).
    { apply Z.bits_inj'. intros p Hp.
      destruct (Z.lt_ge_cases p n).
      - apply Z.mod_pow2_bits_low. assumption.
      - rewrite Z.mod_pow2_bits_high by lia. symmetry. apply Hhigh. assumption. }
    rewrite <- Hmod. apply Z.mod_pos_bound. apply Z.pow_pos_nonneg; lia.
Qed.

Lemma setbit_range (n b p : Z) :
  0 <= b < 2 ^ n -> 0 <= p < n -> 0 <= Z.setbit b p < 2 ^ n.
Proof.
  intros Hb Hp. apply bitset_range; [lia |]. apply bitset_range in Hb; [| lia].
  destruct Hb as [H0 Hhigh]. split.
  - rewrite Z.setbit_spec'. apply Z.lor_nonneg. split; [assumption |].
    apply Z.pow_nonneg. lia.
  - intros q Hq. rewrite Z.setbit_neq by lia. apply Hhigh. assumption.
Qed.

Lemma clearbit_range (n b p : Z) :
  0 <= n -> 0 <= b < 2 ^ n -> 0 <= Z.clearbit b p < 2 ^ n.
Proof.
  intros Hn Hb. apply bitset_range; [lia |]. apply bitset_range in Hb; [| lia].
  destruct Hb as [H0 Hhigh]. split.
  - rewrite Z.clearbit_spec'. apply Z.ldiff_nonneg. left. assumption.
  - intros q Hq. rewrite Z.clearbit_eqb, Hhigh by assumption. reflexivity.
Qed.

Lemma middle_clear_sym (a b : Side) : middle_clear a b -> middle_clear b a.
Proof. intros H p Hp [Hb Ha]. apply (H p Hp). split; assumption. Qed.

Lemma side_inv_repr (s : Side) (off : Z) : side_inv s off -> Side_repr s.
Proof.
  intros (Hr & Ho & _). split; [exact Hr |].
  change (2 ^ 15) with 32768 in Ho. change (2 ^ 16) with 65536. lia.
Qed.

(** The mover's side stays well formed, with one more tile borne off when
    the move ends on position 15. *)
Lemma side_inv_mover (self other : Side) (start steps off : Z) :
  0 <= steps -> side_inv self off -> legal self other start steps ->
  side_inv (put_down (pick_up self start) (start + steps))
           (off + borne_off self other steps start).
Proof.
  intros Hs Hinv Hl.
  pose proof (side_inv_repr _ _ Hinv) as Hrepr.
  destruct Hinv as (Hr & Ho & Hflag & Hoff & Hsum).
  pose proof Hl as Hl'. unfold legal in Hl'.
  destruct (legal_inv _ _ _ _ Hs Hl) as (Hstart & Hend & Hfrom & Hto & _).
  assert (Hsteps : 1 <= steps).
  { destruct (Z.eq_dec steps 0) as [-> |]; [| lia].
    rewrite Z.add_0_r in Hto. congruence. }
  pose proof (remaining_mover self other start steps Hs Hrepr Hflag Hl) as Hrem.
  pose proof (on_path_mover self other start steps Hs Hl) as Hcount.
  assert (Hpile : start = 0 -> 1 <= remaining self).
  { intros ->. unfold pile_flag in Hflag. rewrite Hfrom in Hflag.
    symmetry in Hflag. apply Z.ltb_lt in Hflag. lia. }
  unfold borne_off. rewrite Hl'. cbn [andb].
  unfold side_inv. split; [| split; [| split; [| split]]].
  - rewrite Hrem. destruct (Z.eqb_spec start 0); lia.
  - unfold put_down, pick_up.
    destruct (Z.ltb_spec (start + steps) 15), (start =? 0);
      cbn [occupied]; try destruct (u16 (remaining self - 1) =? 0);
      repeat first [apply setbit_range | apply clearbit_range | assumption]; lia.
  - (* bit 0 against the pile *)
    unfold pile_flag. rewrite Hrem.
    assert (Hbit : Z.testbit (occupied (put_down (pick_up self start) (start + steps))) 0
                   = Z.testbit (occupied (pick_up self start)) 0).
    { rewrite testbit_put_down by lia.
      destruct (Z.eqb_spec (start + steps) 0); [lia |].
      rewrite andb_false_r. reflexivity. }
    rewrite Hbit. unfold pick_up.
    destruct (Z.eqb_spec start 0) as [-> | Hne]; cbn [occupied].
    + rewrite u16_small by (change (2 ^ 16) with 65536 in *; lia).
      destruct (Z.eqb_spec (remaining self - 1) 0) as [H0 | H0].
      * rewrite H0. apply Z.clearbit_eq.
      * rewrite Hfrom. symmetry. apply Z.ltb_lt. lia.
    + rewrite Z.clearbit_neq by lia. rewrite Z.sub_0_r. exact Hflag.
  - destruct (start + steps =? 15); lia.
  - rewrite Hrem, Hcount.
    destruct (Z.eqb_spec start 0), (Z.eqb_spec (start + steps) 15); lia.
Qed.

(** The opponent's side stays well formed, captured or not. *)
Lemma side_inv_opponent (other : Side) (end_ off : Z) :
  side_inv other off ->
  side_inv (if lands_on other end_ then send_back other end_ else other) off.
Proof.
  intros Hinv.
  destruct (lands_on other end_) eqn:Hland; [| exact Hinv].
  destruct Hinv as (Hr & Ho & Hflag & Hoff & Hsum).
  pose proof (on_path_send_back other end_ Hland) as Hcount.
  pose proof (on_path_nonneg other) as Hnn.
  assert (Hrem : remaining (send_back other end_) = remaining other + 1).
  { unfold send_back. cbn [remaining].
    apply u16_small. unfold TILES in *. lia. }
  unfold side_inv. split; [| split; [| split; [| split]]].
  - rewrite Hrem. unfold TILES in *. lia.
  - unfold send_back. cbn [occupied].
    apply setbit_range; [apply clearbit_range; [lia | assumption] | lia].
  - unfold pile_flag. rewrite Hrem. unfold send_back. cbn [occupied].
    rewrite Z.setbit_eq by lia. symmetry. apply Z.ltb_lt. lia.
  - assumption.
  - rewrite Hrem, Hcount. lia.
Qed.

(** Under the invariant the score [display] computes is the number of tiles
    borne off. *)
Lemma count_at_app (l l' : list Z) (b : Z) :
  Bitset.count_at (l ++ l') b = Bitset.count_at l b + Bitset.count_at l' b.
Proof. induction l as [| q l IH]; simpl; [reflexivity | rewrite IH; lia]. Qed.

Lemma count_at_shr (l : list Z) (b : Z) :
  Forall (fun p => 0 <= p) l ->
  Bitset.count_at l (Bitset.shr b 1) = Bitset.count_at (map Z.succ l) b.
Proof.
  induction 1 as [| q l Hq _ IH]; simpl; [reflexivity |].
  unfold Bitset.shr in *. rewrite Z.shiftr_spec, IH by assumption. reflexivity.
Qed.

Lemma score_borne_off (s : Side) (off : Z) : side_inv s off -> score s = off.
Proof.
  intros (Hr & Ho & Hflag & Hoff & Hsum).
  pose proof (on_path_nonneg s) as Hnn.
  assert (Hcount : Bitset.count (Bitset.shr (occupied s) 1) = on_path s).
  { unfold Bitset.count. rewrite count_at_shr.
    - change (map Z.succ (map Z.of_nat (seq 0 16))) with (path ++ [15; 16]).
      rewrite count_at_app. fold (on_path s). cbn [Bitset.count_at].
      apply bitset_range in Ho; [| lia]. destruct Ho as [_ Hhigh].
      rewrite !Hhigh by lia. unfold Z.b2z. lia.
    - apply Forall_forall. intros p Hp. apply in_map_iff in Hp.
      destruct Hp as (n & <- & _). lia. }
  unfold score. rewrite Hcount.
  replace (TILES - remaining s - on_path s) with off by lia.
  apply Z.mod_small. change (2 ^ 64) with 18446744073709551616.
  unfold TILES in *. lia.
Qed.

Lemma game_inv_start : game_inv (mkGame START START true 0 0).
Proof.
  assert (Hside : side_inv START 0).
  { repeat split; vm_compute; congruence. }
  repeat split; try apply Hside.
  apply _verifySides_spec. reflexivity.
Qed.

Lemma game_inv_iteration (g g' : Game) (steps start : Z) :
  0 <= steps -> game_inv g -> iteration steps start g = Some g' -> game_inv g'.
Proof.
  intros Hs (Hleft & Hright & Hclear) Hit.
  unfold iteration in Hit. rewrite playOneRoll_spec in Hit by assumption.
  destruct (current g);
    match type of Hit with
    | context [borne_off ?a ?b steps start] =>
        pose proof (side_inv_mover a b start steps) as Hm;
        pose proof (apply_keeps_middle_clear_aux a b start steps Hs) as Hc;
        unfold borne_off in Hit, Hm;
        destruct (Z.testbit (getOptions a b steps) start) eqn:Hl
    end;
    try rewrite apply_legal in Hit by assumption;
    injection Hit as <-;
    unfold game_inv; cbn [g_left g_right off_left off_right fst ref_self ref_other];
    cbn [andb]; rewrite ?Z.add_0_r.
  - (* the first player moves *)
    split; [| split].
    + apply Hm; assumption.
    + apply side_inv_opponent. assumption.
    + apply Hc; assumption.
  - split; [| split]; assumption.
  - (* the second player moves *)
    split; [| split].
    + apply side_inv_opponent. assumption.
    + apply Hm; assumption.
    + apply middle_clear_sym, Hc; [apply middle_clear_sym |]; assumption.
  - split; [| split]; assumption.
Qed.

Lemma reachable_game_inv_aux (g : Game) : reachable g -> game_inv g.
Proof.
  induction 1 as [| g g' steps start _ IH _ _ Hs _ Hit].
  - apply game_inv_start.
  - apply (game_inv_iteration g g' steps start); [lia | exact IH | exact Hit].
Qed.

(** X1.  Every state of a game has, for each player, pile + tiles on the
    path + tiles borne off equal to TILES and bit 0 mirroring the pile, and
    has no doubly occupied cell in the shared middle lane. *)
Theorem reachable_game_inv (g : Game) :
  reachable g ->
  (remaining (g_left g) + on_path (g_left g) + off_left g = TILES
   /\ remaining (g_right g) + on_path (g_right g) + off_right g = TILES)
  /\ (pile_flag (g_left g) /\ pile_flag (g_right g))
  /\ middle_clear (g_left g) (g_right g).
Proof.
  intros Hg.
  destruct (reachable_game_inv_aux g Hg)
    as ((_ & _ & Hfl & _ & Hsl) & (_ & _ & Hfr & _ & Hsr) & Hclear).
  repeat split; assumption.
Qed.

Lemma reachable_game_inv_witness :
  (remaining START + on_path START + 0 = TILES
   /\ remaining START + on_path START + 0 = TILES)
  /\ (pile_flag START /\ pile_flag START)
  /\ middle_clear START START.
Proof. apply (reachable_game_inv (mkGame START START true 0 0)), reach_start. Defined.

(** X4.  In every state of a game the score [display] shows for a player is
    the number of tiles that player has borne off. *)
Theorem reachable_score (g : Game) :
  reachable g ->
  score (g_left g) = off_left g /\ score (g_right g) = off_right g.
Proof.
  intros Hg. destruct (reachable_game_inv_aux g Hg) as (Hl & Hr & _).
  split; eapply score_borne_off; eassumption.
Qed.

Lemma reachable_score_witness :
  score START = 0 /\ score START = 0.
Proof. apply (reachable_score (mkGame START START true 0 0)), reach_start. Defined.

(** X2.  The state in which the central rosette is open to capture occurs
    in play: the first player enters on 4 and passes, the second enters on 4,
    moves on to 8 and passes. *)
Lemma rosette_capture_reachable :
  reachable (mkGame (mkSide 6 (bits_of [0; 4])) (mkSide 6 (bits_of [0; 8])) true 0 0).
Proof.
  assert (H1 : reachable (mkGame (mkSide 6 (bits_of [0; 4])) START true 0 0)).
  { apply (reach_next (mkGame START START true 0 0) _ 4 0);
      [apply reach_start | discriminate | discriminate | lia | lia | reflexivity]. }
  assert (H2 : reachable (mkGame (mkSide 6 (bits_of [0; 4])) START false 0 0)).
  { apply (reach_next _ _ 0 0 H1); [discriminate | discriminate | lia | lia | reflexivity]. }
  assert (H3 : reachable (mkGame (mkSide 6 (bits_of [0; 4])) (mkSide 6 (bits_of [0; 4]))
                                 false 0 0)).
  { apply (reach_next _ _ 4 0 H2); [discriminate | discriminate | lia | lia | reflexivity]. }
  assert (H4 : reachable (mkGame (mkSide 6 (bits_of [0; 4])) (mkSide 6 (bits_of [0; 8]))
                                 false 0 0)).
  { apply (reach_next _ _ 4 4 H3); [discriminate | discriminate | lia | lia | reflexivity]. }
  apply (reach_next _ _ 0 0 H4); [discriminate | discriminate | lia | lia | reflexivity].
Qed.

(** ** The move generator, position by position *)



(** X6.  A roll of 0 offers no start position, whatever the sides. *)
Theorem getOptions_roll_zero (self other : Side) : getOptions self other 0 = 0.
Proof.
  apply Z.bits_inj'. intros p Hp.
  rewrite getOptions_spec, Z.bits_0, Z.add_0_r by lia.
  destruct (Z.testbit (occupied self) p); simpl;
    rewrite ?andb_false_r; reflexivity.
Qed.

(** X7.  The opponent's side enters the result through position 8 only:
    two opponents that do not stand on position 8 together with the mover
    give the same options. *)
Theorem getOptions_ignores_opponent (self other other' : Side) (steps : Z) :
  0 <= steps < 256 ->
  ~ both_at self other 8 -> ~ both_at self other' 8 ->
  getOptions self other steps = getOptions self other' steps.
Proof.
  intros Hs H8 H8'. apply Z.bits_inj'. intros p Hp.
  rewrite !getOptions_spec by lia.
  destruct (Z.eqb_spec p 8) as [-> |]; [| reflexivity].
  unfold both_at in H8, H8'.
  destruct (Z.testbit (occupied self) 8).
  - destruct (Z.testbit (occupied other) 8); [exfalso; auto |].
    destruct (Z.testbit (occupied other') 8); [exfalso; auto |].
    reflexivity.
  - reflexivity.
Qed.

Lemma getOptions_ignores_opponent_witness :
  getOptions (mkSide 6 (bits_of [0; 4])) (mkSide 6 (bits_of [0; 8])) 4
  = getOptions (mkSide 6 (bits_of [0; 4])) START 4.
Proof.
  apply (getOptions_ignores_opponent
           (mkSide 6 (bits_of [0; 4])) (mkSide 6 (bits_of [0; 8])) START 4);
    [lia | intros [H _]; discriminate | intros [H _]; discriminate].
Defined.

(** X8.  The result of [getOptions] is a bitset below bit 15: position 15,
    the agents' [INVALID], is never offered, and every offered position
    holds a tile of the mover. *)
Theorem getOptions_within (self other : Side) (steps : Z) :
  0 <= getOptions self other steps < 2 ^ 15
  /\ Z.testbit (getOptions self other steps) INVALID = false
  /\ (forall p, Z.testbit (getOptions self other steps) p = true ->
        Z.testbit (occupied self) p = true).
Proof.
  assert (Hbits : forall p, Z.testbit (getOptions self other steps) p = true ->
                    p < 15 /\ Z.testbit (occupied self) p = true).
  { intros p H. unfold getOptions, rule1, Bitset.band in H.
    rewrite !Z.land_spec, testbit_mask15 in H.
    repeat (apply andb_prop in H; destruct H as [H ?]).
    split; [apply Z.ltb_lt |]; assumption. }
  split; [| split].
  - apply bitset_range; [lia |]. split.
    + unfold getOptions, Bitset.band, Bitset.of_ull.
      rewrite !Z.land_nonneg. left. left. left. left. left. lia.
    + intros p Hp.
      destruct (Z.testbit (getOptions self other steps) p) eqn:E; [| reflexivity].
      apply Hbits in E. lia.
  - unfold INVALID.
    destruct (Z.testbit (getOptions self other steps) 15) eqn:E; [| reflexivity].
    apply Hbits in E. lia.
  - intros p H. apply Hbits in H. tauto.
Qed.

(** ** The move applier at its edges *)

(** X9.  [apply] stops with [std::out_of_range] exactly when the start
    position is 16 or more, and then neither side has been written. *)
Theorem apply_throws_iff (self other : Side) (start steps : Z) :
  0 <= start < 256 ->
  (snd (run_apply self other start steps) = None <-> 16 <= start)
  /\ (16 <= start -> fst (run_apply self other start steps) = mkRefs self other).
Proof.
  intros Hstart. split; [split |].
  - intros H. destruct (Z.lt_ge_cases start 16) as [Hin | Hout]; [| assumption].
    rewrite apply_returns in H by assumption. discriminate.
  - intros H. rewrite apply_throws by assumption. reflexivity.
  - intros H. rewrite apply_throws by assumption. reflexivity.
Qed.

Lemma apply_throws_iff_witness :
  fst (run_apply START START 200 4) = mkRefs START START.
Proof.
  apply (apply_throws_iff START START 200 4); lia.
Defined.

(** X10.  A legal move changes two positions of the mover and no other: the
    start is cleared when it is on the path, the destination is set when it
    is below 15, and every other position from 1 up is as before (bit 15 in
    particular is never set). *)
Theorem apply_moves_one_tile (self other : Side) (start steps : Z) :
  0 <= steps < 256 ->
  legal self other start steps ->
  let after := occupied (ref_self (fst (run_apply self other start steps))) in
  (1 <= start -> Z.testbit after start = false)
  /\ (start + steps < 15 -> Z.testbit after (start + steps) = true)
  /\ (forall p, 1 <= p -> p <> start -> p <> start + steps ->
        Z.testbit after p = Z.testbit (occupied self) p)
  /\ Z.testbit after 15 = Z.testbit (occupied self) 15.
Proof.
  intros Hs Hl after.
  destruct (legal_inv _ _ _ _ (proj1 Hs) Hl) as (Hstart & Hend & Hfrom & Hto & _).
  assert (Hsteps : 1 <= steps).
  { destruct (Z.eq_dec steps 0) as [-> |]; [| lia].
    rewrite Z.add_0_r in Hto. congruence. }
  assert (Hbit : forall p, 1 <= p ->
            Z.testbit after p =
              ((start + steps <? 15) && (start + steps =? p))
              || (Z.testbit (occupied self) p && negb (start =? p))).
  { intros p Hp. unfold after. rewrite apply_legal by (lia || assumption).
    cbn [fst ref_self].
    rewrite testbit_put_down, testbit_pick_up by lia. reflexivity. }
  split; [| split; [| split]].
  - intros H1. rewrite Hbit by lia. rewrite Z.eqb_refl.
    destruct (Z.eqb_spec (start + steps) start); [lia |].
    rewrite !andb_false_r. reflexivity.
  - intros H15. rewrite Hbit by lia. rewrite Z.eqb_refl.
    destruct (Z.ltb_spec (start + steps) 15); [reflexivity | lia].
  - intros p Hp Hps Hpe. rewrite Hbit by lia.
    destruct (Z.eqb_spec (start + steps) p); [lia |].
    destruct (Z.eqb_spec start p); [lia |].
    rewrite andb_false_r, andb_true_r. reflexivity.
  - rewrite Hbit by lia.
    destruct (Z.ltb_spec (start + steps) 15), (Z.eqb_spec (start + steps) 15),
      (Z.eqb_spec start 15); try lia; simpl; rewrite ?andb_true_r; reflexivity.
Qed.

Lemma apply_moves_one_tile_witness :
  Z.testbit (occupied (ref_self (fst (run_apply (mkSide 5 (bits_of [0; 2; 6])) START 2 3))))
            (2 + 3) = true.
Proof.
  apply (apply_moves_one_tile (mkSide 5 (bits_of [0; 2; 6])) START 2 3);
    [lia | reflexivity | lia].
Defined.

(** X11.  [apply] does not check the pile: entering a tile from an empty
    pile wraps the pile count to 65535 and leaves bit 0 as it was. *)
Theorem apply_empty_pile_wraps (self other : Side) (steps : Z) :
  remaining self = 0 ->
  let mover := ref_self (fst (run_apply self other 0 steps)) in
  remaining mover = 65535
  /\ Z.testbit (occupied mover) 0
     = Z.testbit (occupied self) 0 || (u8 steps =? 0).
Proof.
  intros Hrem mover. unfold mover.
  rewrite apply_returns by lia. cbn [fst ref_self].
  pose proof (u8_range steps) as He.
  unfold put_down, pick_up. rewrite Hrem. simpl (0 + steps).
  change (0 =? 0) with true. cbv iota.
  change (u16 (0 - 1)) with 65535. change (65535 =? 0) with false. cbv iota.
  destruct (Z.ltb_spec (u8 steps) 15); cbn [remaining occupied].
  - split; [reflexivity |].
    rewrite Z.setbit_eqb by lia. apply orb_comm.
  - split; [reflexivity |].
    destruct (Z.eqb_spec (u8 steps) 0); [lia |]. rewrite orb_false_r. reflexivity.
Qed.

Lemma apply_empty_pile_wraps_witness :
  remaining (ref_self (fst (run_apply (mkSide 0 (bits_of [0])) START 0 1))) = 65535.
Proof.
  apply (apply_empty_pile_wraps (mkSide 0 (bits_of [0])) START 1). reflexivity.
Defined.

(** ** One roll *)



(** ** The agents *)

Lemma find_upward (f : Z -> bool) (a n : nat) :
  match find f (map Z.of_nat (seq a n)) with
  | Some x =>
      Z.of_nat a <= x < Z.of_nat (a + n) /\ f x = true
      /\ forall j, Z.of_nat a <= j < x -> f j = false
  | None => forall j, Z.of_nat a <= j < Z.of_nat (a + n) -> f j = false
  end.
Proof.
  revert a. induction n as [| n IH]; intros a; cbn [seq map find].
  - intros j Hj. lia.
  - destruct (f (Z.of_nat a)) eqn:Ea.
    + repeat split; try lia. exact Ea.
    + specialize (IH (S a)).
      destruct (find f (map Z.of_nat (seq (S a) n))) as [x |].
      * destruct IH as (Hx & Hfx & Hlow). repeat split; try lia; try assumption.
        intros j Hj. destruct (Z.eq_dec j (Z.of_nat a)) as [-> |]; [exact Ea |].
        apply Hlow. lia.
      * intros j Hj. destruct (Z.eq_dec j (Z.of_nat a)) as [-> |]; [exact Ea |].
        apply IH. lia.
Qed.

Lemma find_downward (f : Z -> bool) (c : Z) (a n : nat) :
  match find f (map (fun k => c - Z.of_nat k) (seq a n)) with
  | Some x =>
      c - Z.of_nat (a + n) < x <= c - Z.of_nat a /\ f x = true
      /\ forall j, x < j <= c - Z.of_nat a -> f j = false
  | None => forall j, c - Z.of_nat (a + n) < j <= c - Z.of_nat a -> f j = false
  end.
Proof.
  revert a. induction n as [| n IH]; intros a; cbn [seq map find].
  - intros j Hj. lia.
  - destruct (f (c - Z.of_nat a)) eqn:Ea.
    + repeat split; try lia. exact Ea.
    + specialize (IH (S a)).
      destruct (find f (map (fun k => c - Z.of_nat k) (seq (S a) n))) as [x |].
      * destruct IH as (Hx & Hfx & Hhigh). repeat split; try lia; try assumption.
        intros j Hj. destruct (Z.eq_dec j (c - Z.of_nat a)) as [-> |]; [exact Ea |].
        apply Hhigh. lia.
      * intros j Hj. destruct (Z.eq_dec j (c - Z.of_nat a)) as [-> |]; [exact Ea |].
        apply IH. lia.
Qed.

Lemma first_set_upward (options : Z) :
  (first_set upward options = INVALID
   /\ forall j, 0 <= j <= 14 -> Z.testbit options j = false)
  \/ (0 <= first_set upward options <= 14
      /\ Z.testbit options (first_set upward options) = true
      /\ forall j, 0 <= j < first_set upward options -> Z.testbit options j = false).
Proof.
  unfold first_set, upward.
  pose proof (find_upward (Z.testbit options) 0 15) as H.
  destruct (find (Z.testbit options) (map Z.of_nat (seq 0 15))) as [x |].
  - right. destruct H as (Hx & Hfx & Hlow).
    split; [lia |]. split; [exact Hfx |]. intros j Hj. apply Hlow. lia.
  - left. split; [reflexivity |]. intros j Hj. apply H. lia.
Qed.

Lemma first_set_downward (options : Z) :
  (first_set downward options = INVALID
   /\ forall j, 0 <= j <= 14 -> Z.testbit options j = false)
  \/ (0 <= first_set downward options <= 14
      /\ Z.testbit options (first_set downward options) = true
      /\ forall j, first_set downward options < j <= 14 ->
           Z.testbit options j = false).
Proof.
  unfold first_set, downward.
  pose proof (find_downward (Z.testbit options) 14 0 15) as H.
  destruct (find (Z.testbit options) (map (fun k => 14 - Z.of_nat k) (seq 0 15)))
    as [x |].
  - right. destruct H as (Hx & Hfx & Hhigh).
    split; [lia |]. split; [exact Hfx |]. intros j Hj. apply Hhigh. lia.
  - left. split; [reflexivity |]. intros j Hj. apply H. lia.
Qed.

Lemma Agent_repr_Farthest : Agent_repr FarthestAgent.
Proof.
  intros self other steps options. cbn [getMove FarthestAgent].
  destruct (first_set_upward options) as [[-> _] | [H _]]; unfold INVALID; lia.
Qed.

Lemma Agent_repr_Closest : Agent_repr ClosestAgent.
Proof.
  intros self other steps options. cbn [getMove ClosestAgent].
  destruct (first_set_downward options) as [[-> _] | [H _]]; unfold INVALID; lia.
Qed.

(** Options that are not zero hold a position among 0 to 14. *)
Lemma getOptions_nonzero (self other : Side) (steps : Z) :
  getOptions self other steps <> 0 ->
  exists p, 0 <= p <= 14 /\ Z.testbit (getOptions self other steps) p = true.
Proof.
  intros Hne.
  destruct (find (Z.testbit (getOptions self other steps)) upward) as [x |] eqn:E.
  - apply find_some in E. destruct E as [Hin Hx]. exists x. split; [| exact Hx].
    unfold upward in Hin. apply in_map_iff in Hin. destruct Hin as (n & <- & Hn).
    apply in_seq in Hn. lia.
  - exfalso. apply Hne. apply Z.bits_inj'. intros p Hp. rewrite Z.bits_0.
    destruct (Z.testbit (getOptions self other steps) p) eqn:Ep; [| reflexivity].
    assert (Hlt : p < 15).
    { unfold getOptions, Bitset.band in Ep.
      rewrite !Z.land_spec, testbit_mask15 in Ep.
      repeat (apply andb_prop in Ep; destruct Ep as [Ep ?]).
      apply Z.ltb_lt. assumption. }
    rewrite (find_none _ _ E p) in Ep; [discriminate |].
    unfold upward. apply in_map_iff. exists (Z.to_nat p).
    split; [lia |]. apply in_seq. lia.
Qed.

(** X13.  Among the options of [getOptions], [FarthestAgent] answers the
    lowest position offered and [ClosestAgent] the highest; either answers
    [INVALID] exactly when nothing is offered. *)
Theorem agents_pick_extremes (self other : Side) (steps : Z) :
  let options := getOptions self other steps in
  let low := getMove FarthestAgent self other steps options in
  let high := getMove ClosestAgent self other steps options in
  (options = 0 /\ low = INVALID /\ high = INVALID)
  \/ (options <> 0
      /\ Z.testbit options low = true /\ Z.testbit options high = true
      /\ forall p, Z.testbit options p = true -> low <= p <= high).
Proof.
  intros options low high.
  assert (Hlt : forall p, Z.testbit options p = true -> 0 <= p <= 14).
  { intros p Ep. split.
    - destruct (Z.leb_spec 0 p); [assumption |].
      rewrite Z.testbit_neg_r in Ep by lia. discriminate.
    - unfold options, getOptions, Bitset.band in Ep.
      rewrite !Z.land_spec, testbit_mask15 in Ep.
      repeat (apply andb_prop in Ep; destruct Ep as [Ep ?]).
      match goal with E : (p <? 15) = true |- _ => apply Z.ltb_lt in E end. lia. }
  destruct (Z.eq_dec options 0) as [H0 | Hne].
  - left. split; [exact H0 |].
    unfold low, high. cbn [getMove FarthestAgent ClosestAgent]. rewrite H0.
    split; reflexivity.
  - right. split; [exact Hne |].
    destruct (getOptions_nonzero self other steps Hne) as (q & Hq & Eq).
    fold options in Eq.
    unfold low, high. cbn [getMove FarthestAgent ClosestAgent].
    destruct (first_set_upward options) as [[_ Hnone] | (Hl & El & Hlow)];
      [rewrite Hnone in Eq by assumption; discriminate |].
    destruct (first_set_downward options) as [[_ Hnone] | (Hh & Eh & Hhigh)];
      [rewrite Hnone in Eq by assumption; discriminate |].
    split; [exact El |]. split; [exact Eh |].
    intros p Ep. pose proof (Hlt p Ep) as Hp. split.
    + destruct (Z.le_gt_cases (first_set upward options) p); [assumption |].
      rewrite Hlow in Ep by lia. discriminate.
    + destruct (Z.le_gt_cases p (first_set downward options)); [assumption |].
      rewrite Hhigh in Ep by lia. discriminate.
Qed.

(** X14.  With [FarthestAgent] or [ClosestAgent], [playOneRoll] makes a move
    whenever one is offered: the agent's answer is a legal start, so the
    roll is never forfeited as an invalid move. *)
Theorem agents_never_forfeit (self other : Side) (steps : Z) :
  0 <= steps < 256 ->
  getOptions self other steps <> 0 ->
  let options := getOptions self other steps in
  let low := getMove FarthestAgent self other steps options in
  let high := getMove ClosestAgent self other steps options in
  playOneRollBy FarthestAgent steps (mkRefs self other) = run_apply self other low steps
  /\ playOneRollBy ClosestAgent steps (mkRefs self other) = run_apply self other high steps
  /\ legal self other low steps /\ legal self other high steps.
Proof.
  intros Hs Hne options low high.
  destruct (getOptions_nonzero self other steps Hne) as (q & Hq & Eq).
  fold options in Eq.
  assert (Hlow : legal self other low steps).
  { unfold legal, low. cbn [getMove FarthestAgent]. fold options.
    destruct (first_set_upward options) as [[_ Hnone] | (_ & El & _)];
      [rewrite Hnone in Eq by assumption; discriminate | exact El]. }
  assert (Hhigh : legal self other high steps).
  { unfold legal, high. cbn [getMove ClosestAgent]. fold options.
    destruct (first_set_downward options) as [[_ Hnone] | (_ & Eh & _)];
      [rewrite Hnone in Eq by assumption; discriminate | exact Eh]. }
  assert (Hroll : forall player,
            legal self other (getMove player self other steps options) steps ->
            playOneRollBy player steps (mkRefs self other)
            = run_apply self other (getMove player self other steps options) steps).
  { intros player Hl.
    destruct (legal_inv _ _ _ _ (proj1 Hs) Hl) as (Hstart & _ & Hfrom & Hto & _).
    unfold playOneRollBy.
    destruct (Z.eqb_spec steps 0) as [-> | _].
    { rewrite Z.add_0_r in Hto. congruence. }
    cbv [bind get_side deref ref_self ref_other]. fold options.
    destruct (Z.eqb_spec options 0); [contradiction |].
    unfold legal in Hl. fold options in Hl. rewrite Hl. unfold INVALID.
    destruct (Z.eqb_spec (getMove player self other steps options) 15); [lia |].
    reflexivity. }
  split; [apply (Hroll FarthestAgent); exact Hlow |].
  split; [apply (Hroll ClosestAgent); exact Hhigh |].
  split; assumption.
Qed.

Lemma agents_never_forfeit_witness :
  legal (mkSide 5 (bits_of [0; 2; 6])) START
        (getMove FarthestAgent (mkSide 5 (bits_of [0; 2; 6])) START 3
                 (getOptions (mkSide 5 (bits_of [0; 2; 6])) START 3)) 3.
Proof.
  apply (agents_never_forfeit (mkSide 5 (bits_of [0; 2; 6])) START 3);
    [lia | discriminate].
Defined.

(** ** The end of a game *)

Lemma Side_eqb_eq (a b : Side) : Side_eqb a b = true <-> a = b.
Proof.
  unfold Side_eqb. rewrite andb_true_iff, !Z.eqb_eq.
  destruct a, b; cbn [remaining occupied]. split.
  - intros [-> ->]. reflexivity.
  - intros H. injection H as -> ->. split; reflexivity.
Qed.



(** A mover's side is [COMPLETE] after a legal move only if the move ended
    on position 15. *)
Lemma mover_complete (self other : Side) (start steps : Z) :
  0 <= steps -> legal self other start steps ->
  put_down (pick_up self start) (start + steps) = COMPLETE ->
  start + steps = 15.
Proof.
  intros Hs Hl Hc.
  destruct (legal_inv _ _ _ _ Hs Hl) as (Hstart & Hend & _).
  destruct (Z.eq_dec (start + steps) 15) as [| Hne]; [assumption |].
  exfalso.
  assert (Hbit : Z.testbit (occupied (put_down (pick_up self start) (start + steps)))
                           (start + steps) = true).
  { rewrite testbit_put_down by lia. rewrite Z.eqb_refl.
    destruct (Z.ltb_spec (start + steps) 15); [reflexivity | lia]. }
  rewrite Hc in Hbit. cbn [occupied COMPLETE] in Hbit.
  rewrite Z.bits_0 in Hbit. discriminate.
Qed.

(** The opponent's side does not become [COMPLETE] by a move of the other
    player. *)
Lemma opponent_not_complete (other : Side) (end_ off : Z) :
  side_inv other off -> other <> COMPLETE ->
  (if lands_on other end_ then send_back other end_ else other) <> COMPLETE.
Proof.
  intros (Hr & _ & _ & Hoff & Hsum) Hne.
  destruct (lands_on other end_); [| exact Hne].
  intros Hc. apply (f_equal remaining) in Hc.
  unfold send_back in Hc. cbn [remaining COMPLETE] in Hc.
  pose proof (on_path_nonneg other) as Hnn.
  rewrite u16_small in Hc by (unfold TILES in *; lia). lia.
Qed.

Lemma iteration_winner (g g' : Game) (steps start : Z) :
  0 <= steps -> game_inv g ->
  g_left g <> COMPLETE -> g_right g <> COMPLETE ->
  iteration steps start g = Some g' ->
  (g_left g' = COMPLETE -> current g' = false)
  /\ (g_right g' = COMPLETE -> current g' = true).
Proof.
  intros Hs (Hleft & Hright & _) Hl Hr Hit.
  unfold iteration in Hit. rewrite playOneRoll_spec in Hit by assumption.
  destruct (current g);
    match type of Hit with
    | context [borne_off ?a ?b steps start] =>
        pose proof (mover_complete a b start steps Hs) as Hm;
        destruct (Z.testbit (getOptions a b steps) start) eqn:El
    end;
    try rewrite apply_legal in Hit by assumption;
    injection Hit as <-; cbn [g_left g_right current fst ref_self ref_other].
  - split.
    + intros Hc. rewrite (Hm El Hc). reflexivity.
    + intros Hc. exfalso. revert Hc. eapply opponent_not_complete; eassumption.
  - split; intros Hc; contradiction.
  - split.
    + intros Hc. exfalso. revert Hc. eapply opponent_not_complete; eassumption.
    + intros Hc. rewrite (Hm El Hc). reflexivity.
  - split; intros Hc; contradiction.
Qed.

Lemma reachable_winner_aux (g : Game) :
  reachable g ->
  (g_left g = COMPLETE -> current g = false)
  /\ (g_right g = COMPLETE -> current g = true).
Proof.
  intros Hg. destruct Hg as [| g g' steps start Hg Hl Hr Hs _ Hit].
  - split; discriminate.
  - apply (iteration_winner g g' steps start);
      [lia | apply reachable_game_inv_aux; exact Hg | assumption ..].
Qed.





(** ** Whole games *)

Lemma playOneRollBy_eq (player : Agent) (steps : Z) (self other : Side) :
  playOneRollBy player steps (mkRefs self other) =
    playOneRoll steps (getMove player self other steps (getOptions self other steps))
                (mkRefs self other).
Proof.
  unfold playOneRollBy, playOneRoll.
  destruct (steps =? 0); [reflexivity |].
  cbv [bind get_side deref ref_self ref_other].
  destruct (getOptions self other steps =? 0); reflexivity.
Qed.



Lemma dice_in_range (lo hi : Z) (dice : list Z) :
  forallb (fun s => (lo <=? s) && (s <=? hi)) dice = true ->
  Forall (fun s => lo <= s <= hi) dice.
Proof.
  intros H. apply Forall_forall. intros s Hin.
  rewrite forallb_forall in H. specialize (H s Hin).
  apply andb_prop in H. destruct H as [H1 H2].
  apply Z.leb_le in H1, H2. lia.
Qed.


(** What every iteration keeps, the loop keeps; the property may speak of
    the rolls still to come. *)
Section LoopInvariant.

Variables first second : Agent.
Variable P : list Z -> Game -> Prop.

Hypothesis P_iteration :
  forall (g g' : Game) (steps : Z) (dice : list Z),
    P (steps :: dice) g -> g_left g <> COMPLETE -> g_right g <> COMPLETE ->
    let player := if current g then first else second in
    let self := if current g then g_left g else g_right g in
    let other := if current g then g_right g else g_left g in
    iteration steps (getMove player self other steps (getOptions self other steps)) g
      = Some g' ->
    P dice g'.

Lemma playOneGame_loop_invariant (dice : list Z) :
  forall left_ right_ turn n ol or,
    P dice (mkGame left_ right_ turn ol or) ->
    match playOneGame_loop first second dice left_ right_ turn n with
    | Finished l r c _ =>
        (l = COMPLETE \/ r = COMPLETE)
        /\ exists rest ol' or', P rest (mkGame l r c ol' or')
    | Unfinished l r c _ => exists ol' or', P [] (mkGame l r c ol' or')
    | Threw => True
    end.
Proof using P_iteration.
  induction dice as [| steps dice IH]; intros l r c n ol or Hg;
    cbn [playOneGame_loop].
  - destruct (Side_eqb l COMPLETE) eqn:El, (Side_eqb r COMPLETE) eqn:Er;
      cbn [negb andb];
      try (split; [apply Side_eqb_eq in El || apply Side_eqb_eq in Er; tauto
                  | exists []]);
      exists ol, or; exact Hg.
  - destruct (Side_eqb l COMPLETE) eqn:El, (Side_eqb r COMPLETE) eqn:Er;
      cbn [negb andb];
      try (split; [apply Side_eqb_eq in El || apply Side_eqb_eq in Er; tauto
                  | exists (steps :: dice), ol, or; exact Hg]).
    assert (Hl : l <> COMPLETE).
    { intros Hc. apply Side_eqb_eq in Hc. congruence. }
    assert (Hr : r <> COMPLETE).
    { intros Hc. apply Side_eqb_eq in Hc. congruence. }
    pose proof (fun g' => P_iteration (mkGame l r c ol or) g' steps dice Hg Hl Hr)
      as Hstep.
    cbn [g_left g_right current] in Hstep.
    set (player := if c then first else second) in *.
    set (self := if c then l else r) in *.
    set (other := if c then r else l) in *.
    set (start := getMove player self other steps (getOptions self other steps)) in *.
    unfold iteration in Hstep. cbn [g_left g_right current off_left off_right] in Hstep.
    fold self other in Hstep.
    replace (if c then mkRefs l r else mkRefs r l) with (mkRefs self other)
      by (unfold self, other; destruct c; reflexivity).
    rewrite playOneRollBy_eq. fold start.
    destruct (playOneRoll steps start (mkRefs self other)) as [refs' [again |]];
      [| exact I].
    specialize (Hstep _ eq_refl).
    destruct c; eapply IH; exact Hstep.
Qed.

End LoopInvariant.

(** The sides the loop goes through are states of a game. *)
Lemma playOneGame_loop_reachable (first second : Agent) (dice : list Z) :
  Agent_repr first -> Agent_repr second ->
  Forall (fun s => 0 <= s <= 4) dice ->
  forall left_ right_ turn n ol or,
    reachable (mkGame left_ right_ turn ol or) ->
    match playOneGame_loop first second dice left_ right_ turn n with
    | Finished l r c _ =>
        (l = COMPLETE \/ r = COMPLETE)
        /\ exists ol' or', reachable (mkGame l r c ol' or')
    | Unfinished l r c _ => exists ol' or', reachable (mkGame l r c ol' or')
    | Threw => True
    end.
Proof.
  intros Hfirst Hsecond Hdice l r c n ol or Hg.
  pose proof (playOneGame_loop_invariant first second
                (fun rest g => Forall (fun s => 0 <= s <= 4) rest /\ reachable g))
    as Hloop.
  cbv beta in Hloop.
  assert (Hstep : forall (g g' : Game) (steps : Z) (rest : list Z),
            Forall (fun s => 0 <= s <= 4) (steps :: rest) /\ reachable g ->
            g_left g <> COMPLETE -> g_right g <> COMPLETE ->
            let player := if current g then first else second in
            let self := if current g then g_left g else g_right g in
            let other := if current g then g_right g else g_left g in
            iteration steps
              (getMove player self other steps (getOptions self other steps)) g
              = Some g' ->
            Forall (fun s => 0 <= s <= 4) rest /\ reachable g').
  { intros g g' steps rest [Hd Hr] Hl Hrt player self other Hit.
    inversion Hd as [| ? ? Hs Hrest]; subst. split; [exact Hrest |].
    apply (reach_next g g' steps
             (getMove player self other steps (getOptions self other steps))
             Hr Hl Hrt Hs); [| exact Hit].
    unfold player. destruct (current g); [apply Hfirst | apply Hsecond]. }
  specialize (Hloop Hstep dice l r c n ol or (conj Hdice Hg)).
  destruct (playOneGame_loop first second dice l r c n) as [l' r' c' n' | l' r' c' n' |].
  - destruct Hloop as (Hdone & rest & ol' & or' & _ & Hg').
    split; [exact Hdone |]. exists ol', or'. exact Hg'.
  - destruct Hloop as (ol' & or' & _ & Hg'). exists ol', or'. exact Hg'.
  - exact I.
Qed.

(** X17.  A run of [playOneGame] that leaves the loop has exactly one side
    [COMPLETE]; it returns true when that is the first player's and false
    when it is the second's, and the turn has passed to the loser. *)
Theorem playOneGame_winner (first second : Agent) (dice : list Z)
    (left_ right_ : Side) (turn : bool) (rolls : Z) :
  Agent_repr first -> Agent_repr second ->
  Forall (fun s => 0 <= s <= 4) dice ->
  playOneGame_loop first second dice START START true 0
    = Finished left_ right_ turn rolls ->
  (left_ = COMPLETE /\ right_ <> COMPLETE /\ turn = false
   /\ playOneGame first second dice = Some true)
  \/ (right_ = COMPLETE /\ left_ <> COMPLETE /\ turn = true
      /\ playOneGame first second dice = Some false).
Proof.
  intros Hfirst Hsecond Hdice Hrun.
  pose proof (playOneGame_loop_reachable first second dice Hfirst Hsecond Hdice
                START START true 0 0 0 reach_start) as H.
  unfold playOneGame. rewrite Hrun in H |- *.
  destruct H as (Hdone & ol & or & Hg).
  destruct (reachable_winner_aux _ Hg) as [Hwl Hwr].
  cbn [g_left g_right current] in Hwl, Hwr.
  destruct Hdone as [Hc | Hc].
  - left. pose proof (Hwl Hc) as Hcur. repeat split; try assumption.
    + intros Hc'. rewrite (Hwr Hc') in Hcur. discriminate.
    + f_equal. apply Side_eqb_eq. exact Hc.
  - right. pose proof (Hwr Hc) as Hcur. repeat split; try assumption.
    + intros Hc'. rewrite (Hwl Hc') in Hcur. discriminate.
    + f_equal. apply not_true_is_false. intros Hc'. apply Side_eqb_eq in Hc'.
      rewrite (Hwl Hc') in Hcur. discriminate.
Qed.

Lemma playOneGame_winner_witness :
  (mkSide 0 (bits_of [10]) = COMPLETE /\ COMPLETE <> COMPLETE /\ true = false
   /\ playOneGame ClosestAgent ClosestAgent (repeat 1 210) = Some true)
  \/ (COMPLETE = COMPLETE /\ mkSide 0 (bits_of [10]) <> COMPLETE /\ true = true
      /\ playOneGame ClosestAgent ClosestAgent (repeat 1 210) = Some false).
Proof.
  apply (playOneGame_winner ClosestAgent ClosestAgent (repeat 1 210)
           (mkSide 0 (bits_of [10])) COMPLETE true 210);
    [apply Agent_repr_Closest | apply Agent_repr_Closest
    | apply dice_in_range; vm_compute; reflexivity
    | vm_compute; reflexivity].
Defined.



(** ** Games that never end *)






(** ** The board as text *)

Lemma length_store (l : list Z) (n : nat) (c : Z) : length (store l n c) = length l.
Proof.
  revert n. induction l as [| x l IH]; intros [| n]; cbn [store length];
    try reflexivity. rewrite IH. reflexivity.
Qed.

Lemma char_at_store (l : list Z) (n k : nat) (c : Z) :
  char_at (store l n c) k =
    if (k =? n)%nat && (n <? length l)%nat then c else char_at l k.
Proof.
  unfold char_at. revert n k.
  induction l as [| x l IH]; intros n k.
  - destruct n, k; cbn [store nth length]; rewrite ?andb_false_r; reflexivity.
  - destruct n as [| n], k as [| k]; cbn [store nth]; try reflexivity.
    rewrite IH. cbn [length]. reflexivity.
Qed.

Lemma at_path_bound (i : Z) :
  In i path -> (at_path topPath i < 26)%nat /\ (at_path bottomPath i < 26)%nat.
Proof.
  intros H. apply in_path in H.
  assert (Hi : i = 1 \/ i = 2 \/ i = 3 \/ i = 4 \/ i = 5 \/ i = 6 \/ i = 7 \/ i = 8
               \/ i = 9 \/ i = 10 \/ i = 11 \/ i = 12 \/ i = 13 \/ i = 14) by lia.
  repeat (destruct Hi as [-> | Hi]); try subst i; vm_compute; split; lia.
Qed.

Lemma length_mark (top bottom : Side) (content : list Z) (i : Z) :
  length (mark top bottom content i) = length content.
Proof.
  unfold mark.
  destruct (Z.testbit (occupied top) i), (Z.testbit (occupied bottom) i);
    rewrite ?length_store; reflexivity.
Qed.

Lemma char_at_mark (top bottom : Side) (content : list Z) (i : Z) (k : nat) :
  In i path -> length content = 26%nat ->
  char_at (mark top bottom content i) k =
    mark_cell (Z.testbit (occupied top)) (Z.testbit (occupied bottom)) k
              (char_at content k) i.
Proof.
  intros Hi Hlen. destruct (at_path_bound i Hi) as [Ht Hb].
  apply Nat.ltb_lt in Ht, Hb.
  unfold mark, mark_cell.
  destruct (Z.testbit (occupied top) i), (Z.testbit (occupied bottom) i);
    rewrite ?char_at_store, ?length_store, ?Hlen, ?Ht, ?Hb, ?andb_true_r, ?andb_false_r;
    reflexivity.
Qed.

Lemma display_loop (top bottom : Side) (k : nat) (ps : list Z) :
  (forall i, In i ps -> In i path) ->
  forall content, length content = 26%nat ->
    length (fold_left (mark top bottom) ps content) = 26%nat
    /\ char_at (fold_left (mark top bottom) ps content) k =
         fold_left (mark_cell (Z.testbit (occupied top)) (Z.testbit (occupied bottom)) k)
                   ps (char_at content k).
Proof.
  induction ps as [| i ps IH]; intros Hps content Hlen; cbn [fold_left].
  - split; [exact Hlen | reflexivity].
  - rewrite <- (char_at_mark top bottom content i k) by (auto using in_eq).
    apply IH.
    + intros j Hj. apply Hps. right. exact Hj.
    + rewrite length_mark. exact Hlen.
Qed.

Lemma length_counters (top bottom : Side) : length (counters top bottom) = 26%nat.
Proof. unfold counters, add_char. rewrite !length_store. reflexivity. Qed.

Lemma char_at_counters (top bottom : Side) (k : nat) :
  char_at (counters top bottom) k =
    if (k =? 23)%nat then u8 (chr "0" + score bottom)
    else if (k =? 5)%nat then u8 (chr "0" + score top)
    else if (k =? 22)%nat then u8 (chr "0" + remaining bottom)
    else if (k =? 4)%nat then u8 (chr "0" + remaining top)
    else char_at blank k.
Proof.
  unfold counters, add_char.
  change (at_path topPath 0) with 4%nat. change (at_path bottomPath 0) with 22%nat.
  change (at_path topPath 15) with 5%nat. change (at_path bottomPath 15) with 23%nat.
  rewrite !char_at_store, !length_store.
  change (length blank) with 26%nat.
  cbn [Nat.eqb Nat.ltb Nat.leb andb].
  change (char_at blank 4) with (chr "0"). change (char_at blank 5) with (chr "0").
  change (char_at blank 22) with (chr "0"). change (char_at blank 23) with (chr "0").
  rewrite !andb_true_r. reflexivity.
Qed.

Lemma display_char (top bottom : Side) (k : nat) :
  char_at (display_content top bottom) k =
    fold_left (mark_cell (Z.testbit (occupied top)) (Z.testbit (occupied bottom)) k)
              path (char_at (counters top bottom) k).
Proof.
  unfold display_content.
  apply (display_loop top bottom k path (fun i H => H)), length_counters.
Qed.

(** What each cell of the path shows. *)
Lemma display_cell_chars (top bottom : Side) (i : Z) :
  1 <= i <= 14 ->
  char_at (display_content top bottom) (at_path topPath i) =
    (if shared i && Z.testbit (occupied bottom) i then chr "B"
     else if Z.testbit (occupied top) i then chr "T" else chr ".")
  /\ char_at (display_content top bottom) (at_path bottomPath i) =
       (if Z.testbit (occupied bottom) i then chr "B"
        else if shared i && Z.testbit (occupied top) i then chr "T" else chr ".").
Proof.
  intros H.
  assert (Hi : i = 1 \/ i = 2 \/ i = 3 \/ i = 4 \/ i = 5 \/ i = 6 \/ i = 7 \/ i = 8
               \/ i = 9 \/ i = 10 \/ i = 11 \/ i = 12 \/ i = 13 \/ i = 14) by lia.
  clear H.
  repeat (destruct Hi as [-> | Hi]); try subst i;
    rewrite !display_char, !char_at_counters;
    generalize (Z.testbit (occupied top)) as t;
    generalize (Z.testbit (occupied bottom)) as b; intros b t;
    vm_compute; split; reflexivity.
Qed.

Lemma length_display_content (top bottom : Side) :
  length (display_content top bottom) = 26%nat.
Proof. apply (display_loop top bottom 0 path (fun i H => H)), length_counters. Qed.

(** The loop over the path leaves the counters as they were written. *)
Lemma display_counter_cells (top bottom : Side) :
  char_at (display_content top bottom) 4 = u8 (chr "0" + remaining top)
  /\ char_at (display_content top bottom) 5 = u8 (chr "0" + score top)
  /\ char_at (display_content top bottom) 22 = u8 (chr "0" + remaining bottom)
  /\ char_at (display_content top bottom) 23 = u8 (chr "0" + score bottom).
Proof.
  repeat split;
    rewrite display_char, char_at_counters; cbn [Nat.eqb];
    generalize (Z.testbit (occupied top)) as t;
    generalize (Z.testbit (occupied bottom)) as b; intros b t;
    match goal with |- context [u8 ?v] => generalize (u8 v) as x; intros x end;
    vm_compute; reflexivity.
Qed.

(** X20.  Whatever the sides, [display] builds 26 characters, keeps the two
    line breaks, and leaves each counter as the character ['0'] advanced by
    the count, narrowed to a [char]: the loop over the path touches none of
    these cells. *)
Theorem display_frame (top bottom : Side) :
  let content := display_content top bottom in
  length content = 26%nat
  /\ char_at content 8 = chr "010" /\ char_at content 17 = chr "010"
  /\ char_at content 4 = u8 (chr "0" + remaining top)
  /\ char_at content 5 = u8 (chr "0" + score top)
  /\ char_at content 22 = u8 (chr "0" + remaining bottom)
  /\ char_at content 23 = u8 (chr "0" + score bottom).
Proof.
  intros content. unfold content.
  split; [apply length_display_content |].
  split; [| split; [| apply display_counter_cells]];
    rewrite display_char, char_at_counters; cbn [Nat.eqb];
    generalize (Z.testbit (occupied top)) as t;
    generalize (Z.testbit (occupied bottom)) as b; intros b t;
    vm_compute; reflexivity.
Qed.

(** X21.  Reading the board: for a position 1 to 14, the bottom player's
    cell shows ['B'] exactly when the bottom player has a tile there; the
    top player's cell shows ['T'] exactly when the top player has a tile
    there that no tile of the bottom player hides on a shared cell, and
    ['.'] exactly when neither holds the cell. *)
Theorem display_cells (top bottom : Side) (i : Z) :
  1 <= i <= 14 ->
  let content := display_content top bottom in
  let hidden := shared i = true /\ Z.testbit (occupied bottom) i = true in
  (char_at content (at_path bottomPath i) = chr "B"
   <-> Z.testbit (occupied bottom) i = true)
  /\ (char_at content (at_path topPath i) = chr "T"
      <-> Z.testbit (occupied top) i = true /\ ~ hidden)
  /\ (char_at content (at_path topPath i) = chr "."
      <-> Z.testbit (occupied top) i = false /\ ~ hidden).
Proof.
  intros Hi content hidden. unfold content, hidden.
  destruct (display_cell_chars top bottom i Hi) as [-> ->].
  destruct (shared i), (Z.testbit (occupied bottom) i), (Z.testbit (occupied top) i);
    vm_compute; intuition discriminate.
Qed.

Lemma display_cells_witness :
  char_at (display_content (mkSide 3 (bits_of [0; 2; 3; 9])) (mkSide 5 (bits_of [0; 1; 11])))
          (at_path bottomPath 11) = chr "B"
  <-> Z.testbit (occupied (mkSide 5 (bits_of [0; 1; 11]))) 11 = true.
Proof.
  apply (display_cells (mkSide 3 (bits_of [0; 2; 3; 9])) (mkSide 5 (bits_of [0; 1; 11])) 11).
  lia.
Defined.

Lemma c_str_all (l : list Z) :
  (forall k, (k < length l)%nat -> char_at l k <> 0) -> c_str l = l.
Proof.
  induction l as [| c l IH]; intros H; cbn [c_str]; [reflexivity |].
  destruct (Z.eqb_spec c 0) as [-> | _].
  - exfalso. apply (H 0%nat); [cbn [length]; lia | reflexivity].
  - f_equal. apply IH. intros k Hk. apply (H (S k)). cbn [length]. lia.
Qed.

(** The counters of a side under the invariant are digits. *)
Lemma counter_digits (s : Side) (off : Z) :
  side_inv s off ->
  u8 (chr "0" + remaining s) = chr "0" + remaining s
  /\ u8 (chr "0" + score s) = chr "0" + off
  /\ 0 <= remaining s <= 7 /\ 0 <= off <= 7.
Proof.
  intros Hinv. rewrite (score_borne_off s off Hinv).
  destruct Hinv as (Hr & _ & _ & Hoff & Hsum).
  pose proof (on_path_nonneg s) as Hnn. unfold TILES in Hsum.
  change (chr "0") with 48.
  repeat split; try lia; apply u8_small; lia.
Qed.

Lemma mark_cell_no_nul (t b : Z -> bool) (k : nat) (ps : list Z) :
  forall x, x <> 0 -> fold_left (mark_cell t b k) ps x <> 0.
Proof.
  induction ps as [| i ps IH]; intros x Hx; cbn [fold_left]; [exact Hx |].
  apply IH. unfold mark_cell.
  destruct ((k =? at_path bottomPath i)%nat && b i); [discriminate |].
  destruct ((k =? at_path topPath i)%nat && t i); [discriminate | exact Hx].
Qed.

Lemma blank_no_nul (k : nat) : (k < 26)%nat -> char_at blank k <> 0.
Proof.
  intros Hk.
  do 26 (destruct k as [| k]; [vm_compute; discriminate |]).
  lia.
Qed.

Lemma display_no_nul (top bottom : Side) (ot ob : Z) :
  side_inv top ot -> side_inv bottom ob ->
  forall k, (k < 26)%nat -> char_at (display_content top bottom) k <> 0.
Proof.
  intros Htop Hbottom k Hk.
  destruct (counter_digits top ot Htop) as (Ht1 & Ht2 & Ht3 & Ht4).
  destruct (counter_digits bottom ob Hbottom) as (Hb1 & Hb2 & Hb3 & Hb4).
  rewrite display_char. apply mark_cell_no_nul.
  rewrite char_at_counters, Ht1, Ht2, Hb1, Hb2.
  change (chr "0") with 48.
  destruct (k =? 23)%nat; [lia |].
  destruct (k =? 5)%nat; [lia |].
  destruct (k =? 22)%nat; [lia |].
  destruct (k =? 4)%nat; [lia |].
  apply blank_no_nul. exact Hk.
Qed.

Lemma display_not_truncated (top bottom : Side) (ot ob : Z) :
  side_inv top ot -> side_inv bottom ob ->
  display top bottom = display_content top bottom ++ [chr "010"].
Proof.
  intros Htop Hbottom. unfold display. f_equal. apply c_str_all.
  rewrite length_display_content.
  apply (display_no_nul top bottom ot ob); assumption.
Qed.

(** X22.  For two sides that satisfy the invariant of play, the counters
    are the digits of the pile and of the tiles borne off, each between
    ['0'] and ['7'], and the text printed is the whole array followed by the
    line break of [std::endl]: no byte of it is NUL. *)
Theorem display_valid (top bottom : Side) (ot ob : Z) :
  side_inv top ot -> side_inv bottom ob ->
  let content := display_content top bottom in
  (char_at content 4 = chr "0" + remaining top /\ 0 <= remaining top <= 7)
  /\ (char_at content 5 = chr "0" + ot /\ 0 <= ot <= 7)
  /\ (char_at content 22 = chr "0" + remaining bottom /\ 0 <= remaining bottom <= 7)
  /\ (char_at content 23 = chr "0" + ob /\ 0 <= ob <= 7)
  /\ display top bottom = content ++ [chr "010"].
Proof.
  intros Htop Hbottom content. unfold content.
  destruct (counter_digits top ot Htop) as (Ht1 & Ht2 & Ht3 & Ht4).
  destruct (counter_digits bottom ob Hbottom) as (Hb1 & Hb2 & Hb3 & Hb4).
  destruct (display_counter_cells top bottom) as (H4 & H5 & H22 & H23).
  rewrite H4, H5, H22, H23, Ht1, Ht2, Hb1, Hb2.
  repeat split; try lia.
  apply (display_not_truncated top bottom ot ob); assumption.
Qed.

Lemma display_valid_witness :
  display START START = display_content START START ++ [chr "010"].
Proof.
  apply (display_valid START START 0 0); apply game_inv_start.
Defined.

(** A side under the invariant is given by its pile and its tiles on the
    positions 1 to 14. *)
Lemma side_inv_ext (s s' : Side) (off off' : Z) :
  side_inv s off -> side_inv s' off' ->
  remaining s = remaining s' ->
  (forall i, 1 <= i <= 14 -> Z.testbit (occupied s) i = Z.testbit (occupied s') i) ->
  s = s'.
Proof.
  intros (_ & Ho & Hflag & _) (_ & Ho' & Hflag' & _) Hrem Hbits.
  assert (Hocc : occupied s = occupied s').
  { apply Z.bits_inj'. intros p Hp.
    destruct (Z.eq_dec p 0) as [-> |].
    - unfold pile_flag in Hflag, Hflag'. rewrite Hflag, Hflag', Hrem. reflexivity.
    - destruct (Z.lt_ge_cases p 15).
      + apply Hbits. lia.
      + apply bitset_range in Ho, Ho'; try lia.
        rewrite (proj2 Ho), (proj2 Ho') by assumption. reflexivity. }
  destruct s, s'. cbn [remaining occupied] in Hrem, Hocc. subst. reflexivity.
Qed.

Lemma bits_from_chars (top bottom : Side) (i : Z) :
  1 <= i <= 14 -> middle_clear top bottom ->
  Z.testbit (occupied top) i
    = (char_at (display_content top bottom) (at_path topPath i) =? chr "T")
  /\ Z.testbit (occupied bottom) i
     = (char_at (display_content top bottom) (at_path bottomPath i) =? chr "B").
Proof.
  intros Hi Hclear.
  destruct (display_cell_chars top bottom i Hi) as [-> ->].
  assert (Hmid : shared i = true -> Z.testbit (occupied top) i = true ->
                 Z.testbit (occupied bottom) i = true -> False).
  { unfold shared. intros Hs Ht Hb. apply andb_prop in Hs. destruct Hs as [H5 H12].
    apply Z.leb_le in H5, H12. apply (Hclear i); [lia | split; assumption]. }
  destruct (shared i), (Z.testbit (occupied top) i), (Z.testbit (occupied bottom) i);
    cbn [andb]; try (exfalso; apply Hmid; reflexivity); split; reflexivity.
Qed.

(** X23.  The printed board tells the state: two pairs of sides that satisfy
    the invariant of play and print the same text are the same sides. *)
Theorem display_injective (top bottom top' bottom' : Side) (ot ob ot' ob' : Z) :
  side_inv top ot -> side_inv bottom ob -> middle_clear top bottom ->
  side_inv top' ot' -> side_inv bottom' ob' -> middle_clear top' bottom' ->
  display top bottom = display top' bottom' ->
  top = top' /\ bottom = bottom'.
Proof.
  intros Ht Hb Hclear Ht' Hb' Hclear' Hsame.
  rewrite (display_not_truncated top bottom ot ob Ht Hb) in Hsame.
  rewrite (display_not_truncated top' bottom' ot' ob' Ht' Hb') in Hsame.
  apply app_inv_tail in Hsame.
  destruct (display_counter_cells top bottom) as (H4 & _ & H22 & _).
  destruct (display_counter_cells top' bottom' ) as (H4' & _ & H22' & _).
  rewrite Hsame, H4' in H4. rewrite Hsame, H22' in H22.
  rewrite (proj1 (counter_digits top ot Ht)) in H4.
  rewrite (proj1 (counter_digits top' ot' Ht')) in H4.
  rewrite (proj1 (counter_digits bottom ob Hb)) in H22.
  rewrite (proj1 (counter_digits bottom' ob' Hb')) in H22.
  split.
  - apply (side_inv_ext top top' ot ot' Ht Ht'); [lia |].
    intros i Hi.
    rewrite (proj1 (bits_from_chars top bottom i Hi Hclear)).
    rewrite (proj1 (bits_from_chars top' bottom' i Hi Hclear')).
    rewrite Hsame. reflexivity.
  - apply (side_inv_ext bottom bottom' ob ob' Hb Hb'); [lia |].
    intros i Hi.
    rewrite (proj2 (bits_from_chars top bottom i Hi Hclear)).
    rewrite (proj2 (bits_from_chars top' bottom' i Hi Hclear')).
    rewrite Hsame. reflexivity.
Qed.

Lemma display_injective_witness :
  mkSide 6 (bits_of [0; 4]) = mkSide 6 (bits_of [0; 4])
  /\ mkSide 6 (bits_of [0; 8]) = mkSide 6 (bits_of [0; 8]).
Proof.
  assert (Ha : side_inv (mkSide 6 (bits_of [0; 4])) 0)
    by (repeat split; vm_compute; congruence).
  assert (Hb : side_inv (mkSide 6 (bits_of [0; 8])) 0)
    by (repeat split; vm_compute; congruence).
  assert (Hc : middle_clear (mkSide 6 (bits_of [0; 4])) (mkSide 6 (bits_of [0; 8])))
    by (apply _verifySides_spec; reflexivity).
  apply (display_injective _ _ _ _ 0 0 0 0 Ha Hb Hc Ha Hb Hc). reflexivity.
Defined.

(** ** Turns and checks during play *)



(** X25.  Every state of a game passes [_verifySides], with the sides given
    in either order. *)
Theorem reachable_verified (g : Game) :
  reachable g ->
  _verifySides (g_left g) (g_right g) = true
  /\ _verifySides (g_right g) (g_left g) = true.
Proof.
  intros Hg. destruct (reachable_game_inv_aux g Hg) as (_ & _ & Hclear).
  split; apply _verifySides_spec; [| apply middle_clear_sym]; exact Hclear.
Qed.

Lemma reachable_verified_witness :
  _verifySides START START = true /\ _verifySides START START = true.
Proof. apply (reachable_verified (mkGame START START true 0 0)), reach_start. Defined.

(** X26.  In every state of a game each pile holds at most [TILES] tiles,
    each side has at most [TILES] tiles on the path and at most [TILES]
    borne off, and bit 15 of [occupied] is clear. *)
Theorem reachable_bounds (g : Game) :
  reachable g ->
  (0 <= remaining (g_left g) <= TILES /\ 0 <= on_path (g_left g) <= TILES
   /\ 0 <= off_left g <= TILES /\ 0 <= occupied (g_left g) < 2 ^ 15)
  /\ (0 <= remaining (g_right g) <= TILES /\ 0 <= on_path (g_right g) <= TILES
      /\ 0 <= off_right g <= TILES /\ 0 <= occupied (g_right g) < 2 ^ 15).
Proof.
  intros Hg. destruct (reachable_game_inv_aux g Hg) as (Hl & Hr & _).
  assert (Hside : forall s off, side_inv s off ->
            0 <= remaining s <= TILES /\ 0 <= on_path s <= TILES
            /\ 0 <= off <= TILES /\ 0 <= occupied s < 2 ^ 15).
  { intros s off (Hrem & Hocc & _ & Hoff & Hsum).
    pose proof (on_path_nonneg s) as Hnn. repeat split; lia. }
  split; apply Hside; assumption.
Qed.

Lemma reachable_bounds_witness :
  (0 <= remaining START <= TILES /\ 0 <= on_path START <= TILES
   /\ 0 <= 0 <= TILES /\ 0 <= occupied START < 2 ^ 15)
  /\ (0 <= remaining START <= TILES /\ 0 <= on_path START <= TILES
      /\ 0 <= 0 <= TILES /\ 0 <= occupied START < 2 ^ 15).
Proof. apply (reachable_bounds (mkGame START START true 0 0)), reach_start. Defined.

(** ** Progress *)

Lemma weight_at_ext (ps : list Z) (a b : Z) :
  (forall p, In p ps -> Z.testbit a p = Z.testbit b p) ->
  weight_at ps a = weight_at ps b.
Proof.
  induction ps as [| q qs IH]; cbn [weight_at]; intros H; [reflexivity |].
  rewrite (H q) by (left; reflexivity).
  rewrite IH by (intros; apply H; right; assumption).
  reflexivity.
Qed.

Lemma weight_at_setbit_in (ps : list Z) (b k : Z) :
  NoDup ps -> 0 <= k -> In k ps -> Z.testbit b k = false ->
  weight_at ps (Z.setbit b k) = weight_at ps b + k.
Proof.
  intros Hnd Hk Hin Hclear.
  induction Hnd as [| q qs Hq Hqs IH]; cbn [weight_at]; [contradiction |].
  destruct Hin as [-> | Hin].
  - rewrite Z.setbit_eq, Hclear by assumption.
    rewrite (weight_at_ext qs (Z.setbit b k) b).
    + unfold Z.b2z. lia.
    + intros p Hp. apply Z.setbit_neq; [assumption | congruence].
  - rewrite Z.setbit_neq by (try assumption; congruence).
    rewrite IH by assumption. lia.
Qed.

Lemma weight_at_clearbit_in (ps : list Z) (b k : Z) :
  NoDup ps -> In k ps -> Z.testbit b k = true ->
  weight_at ps (Z.clearbit b k) = weight_at ps b - k.
Proof.
  intros Hnd Hin Hset.
  induction Hnd as [| q qs Hq Hqs IH]; cbn [weight_at]; [contradiction |].
  destruct Hin as [-> | Hin].
  - rewrite Z.clearbit_eq, Hset.
    rewrite (weight_at_ext qs (Z.clearbit b k) b).
    + unfold Z.b2z. lia.
    + intros p Hp. apply Z.clearbit_neq. congruence.
  - rewrite Z.clearbit_neq by congruence.
    rewrite IH by assumption. lia.
Qed.


(** The positions of the mover's tiles after a legal move: the start left,
    the destination gained unless the tile is borne off. *)
Lemma weight_mover (self other : Side) (start steps : Z) :
  0 <= steps -> legal self other start steps ->
  weight_at path (occupied (put_down (pick_up self start) (start + steps))) =
    weight_at path (occupied self) - start
    + (if start + steps =? 15 then 0 else start + steps).
Proof.
  intros Hs Hl.
  destruct (legal_inv _ _ _ _ Hs Hl) as (Hstart & Hend & Hfrom & Hto & _).
  assert (Hsteps : 1 <= steps).
  { destruct (Z.eq_dec steps 0) as [-> |]; [| lia].
    rewrite Z.add_0_r in Hto. congruence. }
  assert (Hpick : weight_at path (occupied (pick_up self start))
                  = weight_at path (occupied self) - start).
  { unfold pick_up.
    destruct (Z.eqb_spec start 0) as [-> | Hne]; cbn [occupied].
    - rewrite Z.sub_0_r.
      destruct (u16 (remaining self - 1) =? 0); [| reflexivity].
      apply weight_at_ext. intros p Hp. apply in_path in Hp.
      apply Z.clearbit_neq. lia.
    - apply weight_at_clearbit_in;
        [apply path_NoDup | apply in_path; lia | assumption]. }
  assert (Hfree : Z.testbit (occupied (pick_up self start)) (start + steps) = false).
  { rewrite testbit_pick_up by lia. rewrite Hto. reflexivity. }
  unfold put_down.
  destruct (Z.eqb_spec (start + steps) 15) as [H15 | H15].
  - destruct (Z.ltb_spec (start + steps) 15); [lia |]. rewrite Hpick. lia.
  - destruct (Z.ltb_spec (start + steps) 15); [| lia]. cbn [occupied].
    rewrite weight_at_setbit_in, Hpick;
      [lia | apply path_NoDup | lia | apply in_path; lia | assumption].
Qed.

Lemma weight_send_back (other : Side) (end_ : Z) :
  lands_on other end_ = true ->
  weight_at path (occupied (send_back other end_))
  = weight_at path (occupied other) - end_.
Proof.
  unfold lands_on. intros H.
  apply andb_prop in H. destruct H as [H Hocc].
  apply andb_prop in H. destruct H as [H5 H12].
  apply Z.leb_le in H5, H12.
  unfold send_back. cbn [occupied].
  rewrite (weight_at_ext path _ (Z.clearbit (occupied other) end_)).
  - apply weight_at_clearbit_in; [apply path_NoDup | apply in_path; lia | assumption].
  - intros p Hp. apply in_path in Hp. apply Z.setbit_neq; lia.
Qed.

Lemma progress_mover (self other : Side) (start steps off : Z) :
  0 <= steps -> legal self other start steps ->
  progress (put_down (pick_up self start) (start + steps))
           (off + borne_off self other steps start)
  = progress self off + steps.
Proof.
  intros Hs Hl. unfold progress.
  rewrite (weight_mover self other) by assumption.
  unfold borne_off. unfold legal in Hl. rewrite Hl. cbn [andb].
  destruct (Z.eqb_spec (start + steps) 15); lia.
Qed.

Lemma progress_opponent (other : Side) (end_ off : Z) :
  progress (if lands_on other end_ then send_back other end_ else other) off
  = progress other off - (if lands_on other end_ then end_ else 0).
Proof.
  unfold progress. destruct (lands_on other end_) eqn:Hland; [| lia].
  rewrite weight_send_back by assumption. lia.
Qed.

(** X27.  A legal move advances the mover by exactly the roll: the sum of
    the positions of the mover's tiles, a tile borne off counting 15, grows
    by [steps]; the opponent falls back by the position of a captured tile
    and is otherwise where it was. *)
Theorem apply_advances (self other : Side) (start steps off_self off_other : Z) :
  0 <= steps < 256 ->
  legal self other start steps ->
  let r := run_apply self other start steps in
  let end_ := start + steps in
  progress (ref_self (fst r)) (off_self + borne_off self other steps start)
    = progress self off_self + steps
  /\ progress (ref_other (fst r)) off_other
     = progress other off_other - (if lands_on other end_ then end_ else 0).
Proof.
  intros Hs Hl r end_. unfold r, end_.
  rewrite apply_legal by (lia || assumption). cbn [fst ref_self ref_other].
  split; [apply progress_mover; lia || assumption | apply progress_opponent].
Qed.

Lemma apply_advances_witness :
  progress (ref_self (fst (run_apply (mkSide 5 (bits_of [0; 11])) START 11 4)))
           (1 + borne_off (mkSide 5 (bits_of [0; 11])) START 4 11)
  = progress (mkSide 5 (bits_of [0; 11])) 1 + 4.
Proof.
  apply (apply_advances (mkSide 5 (bits_of [0; 11])) START 11 4 1 0);
    [lia | reflexivity].
Defined.




(** X29.  In play the options never depend on the opponent: two sides of a
    game never stand on position 8 together, so rule 3 removes nothing and
    each player is offered what an empty opposing side would offer. *)
Theorem options_blind_in_play (g : Game) (steps : Z) :
  reachable g -> 0 <= steps < 256 ->
  getOptions (g_left g) (g_right g) steps = getOptions (g_left g) COMPLETE steps
  /\ getOptions (g_right g) (g_left g) steps = getOptions (g_right g) COMPLETE steps.
Proof.
  intros Hg Hs. destruct (reachable_game_inv_aux g Hg) as (_ & _ & Hclear).
  assert (Hblind : forall self other, middle_clear self other ->
            getOptions self other steps = getOptions self COMPLETE steps).
  { intros self other Hc. apply Z.bits_inj'. intros p Hp.
    rewrite !getOptions_spec by lia.
    destruct (Z.eqb_spec p 8) as [-> |]; [| reflexivity].
    cbn [occupied COMPLETE]. rewrite Z.bits_0.
    destruct (Z.testbit (occupied self) 8) eqn:Es; [| reflexivity].
    destruct (Z.testbit (occupied other) 8) eqn:Eo; [| reflexivity].
    exfalso. apply (Hc 8); [lia | split; assumption]. }
  split; apply Hblind; [| apply middle_clear_sym]; exact Hclear.
Qed.

Lemma options_blind_in_play_witness :
  getOptions (mkSide 6 (bits_of [0; 4])) (mkSide 6 (bits_of [0; 8])) 4
  = getOptions (mkSide 6 (bits_of [0; 4])) COMPLETE 4
  /\ getOptions (mkSide 6 (bits_of [0; 8])) (mkSide 6 (bits_of [0; 4])) 4
     = getOptions (mkSide 6 (bits_of [0; 8])) COMPLETE 4.
Proof.
  apply (options_blind_in_play
           (mkGame (mkSide 6 (bits_of [0; 4])) (mkSide 6 (bits_of [0; 8])) true 0 0) 4);
    [| lia].
  apply (reach_next (mkGame (mkSide 6 (bits_of [0; 4])) (mkSide 6 (bits_of [0; 8]))
                            false 0 0) _ 0 0);
    [| discriminate | discriminate | lia | lia | reflexivity].
  apply (reach_next (mkGame (mkSide 6 (bits_of [0; 4])) (mkSide 6 (bits_of [0; 4]))
                            false 0 0) _ 4 4);
    [| discriminate | discriminate | lia | lia | reflexivity].
  apply (reach_next (mkGame (mkSide 6 (bits_of [0; 4])) START false 0 0) _ 4 0);
    [| discriminate | discriminate | lia | lia | reflexivity].
  apply (reach_next (mkGame (mkSide 6 (bits_of [0; 4])) START true 0 0) _ 0 0);
    [| discriminate | discriminate | lia | lia | reflexivity].
  apply (reach_next (mkGame START START true 0 0) _ 4 0);
    [apply reach_start | discriminate | discriminate | lia | lia | reflexivity].
Defined.
